(** * mmpm web front-end: the shared store and its start-up hook

    A shallow embedding of [SharedStoreService] (services/shared-store.service.ts)
    and of [init_shared_store] (app/app.module.ts).

    The store owns three rxjs [BehaviorSubject]s and one method, [load], that
    chains three promise-returning calls of the package API.  The program is
    event driven: what happens next is decided by the callers of [load], by
    the subscribers of the three observables and by the API promises
    settling.  The embedding is therefore a labelled transition system: an
    executable [step] function over an explicit [state], the labels being the
    stimuli of the outside world.

    [MagicMirrorPackageAPI] is outside the sources: each of its calls returns
    a promise, which the outside world fulfils with an [APIResponse], rejects,
    or leaves in flight for ever.  A [.then] callback runs in the same step
    as the settlement of its promise: callbacks run one at a time, in the
    order their promises settle.  Observers are passive: what an observer
    does with a notification is not part of the store, and it does not call
    back into it from inside [next]. *)

From stdpp Require Import base strings list gmap.

Set Warnings "-register-all,-clear-no-such-hyp".

Local Open Scope Z_scope.

(** ** JavaScript values *)

(** The three calls of [MagicMirrorPackageAPI] that [load] makes:
    [getPackages()], [get_("db/info")] and [get_("db/upgradable")]. *)
Inductive endpoint := GetPackages | GetDbInfo | GetDbUpgradable.

(** The three public observables of the store. *)
Inductive channel := Packages | DbInfo | Upgradable.

(** The promises of one [load] call, numbered by the call: the promise an API
    call returns and the promise its [.then] derives from it. *)
Inductive promise :=
| PFetch (l : nat) (e : endpoint)
| PThen (l : nat) (e : endpoint).

Inductive value :=
| VUndefined
| VBool (b : bool)
| VNum (n : Z)
| VStr (s : string)
| VArr (items : list value)
| VObj (fields : list (string * value))
| VPromise (p : promise).

(** [APIResponse] is declared in services/api/base-api, which is not part of
    the sources at hand; [load] reads its fields [code] and [message] only.
    [message] is cast without a check ([as Array<MagicMirrorPackage>], ...),
    so it is any value. *)
Record APIResponse := { code : Z; message : value }.

(** How an API promise settles. *)
Inductive outcome :=
| Fulfilled (response : APIResponse)
| Rejected (reason : value).

(** How a call ends. *)
Inductive completion :=
| Return (v : value)
| Throw (err : value).

#[global] Instance endpoint_eq_dec : EqDecision endpoint.
Proof. solve_decision. Defined.
#[global] Instance channel_eq_dec : EqDecision channel.
Proof. solve_decision. Defined.

(** ** rxjs BehaviorSubject *)

Inductive notification :=
| Next (v : value)
| Error (err : value)
| Complete.

(** Modelled from the spec: rxjs is a dependency, its [BehaviorSubject] is not
    among the sources.  The spec's observable channel "holds a current value,
    delivers it to every subscriber immediately upon subscription, and
    notifies all current subscribers on each subsequent update"; the fields
    below are those of rxjs's class.  Observers are named by numbers. *)
Record BehaviorSubject := {
  _value : value;
  observers : list nat;
  isStopped : bool;
  hasError : bool;
  thrownError : value
}.

Module Subject.

(** [new BehaviorSubject(v)] *)
Definition new (v : value) : BehaviorSubject :=
  {| _value := v; observers := []; isStopped := false; hasError := false;
     thrownError := VUndefined |}.

(** [subj.next(v)]: the notifications sent, in order, one per observer. *)
Definition next (v : value) (b : BehaviorSubject)
  : BehaviorSubject * list (nat * notification) :=
  ({| _value := v; observers := observers b; isStopped := isStopped b;
      hasError := hasError b; thrownError := thrownError b |},
   if isStopped b then [] else (λ o, (o, Next v)) <$> observers b).

(** [subj.error(err)]; the store never calls it. *)
Definition error (err : value) (b : BehaviorSubject)
  : BehaviorSubject * list (nat * notification) :=
  if isStopped b then (b, [])
  else ({| _value := _value b; observers := []; isStopped := true;
           hasError := true; thrownError := err |},
        (λ o, (o, Error err)) <$> observers b).

(** [subj.complete()]; the store never calls it. *)
Definition complete (b : BehaviorSubject)
  : BehaviorSubject * list (nat * notification) :=
  if isStopped b then (b, [])
  else ({| _value := _value b; observers := []; isStopped := true;
           hasError := hasError b; thrownError := thrownError b |},
        (λ o, (o, Complete)) <$> observers b).

(** [subj.asObservable().subscribe(o)]: what [o] receives at once. *)
Definition subscribe (o : nat) (b : BehaviorSubject)
  : BehaviorSubject * list (nat * notification) :=
  if hasError b then (b, [(o, Error (thrownError b))])
  else if isStopped b then (b, [(o, Complete)])
  else ({| _value := _value b; observers := observers b ++ [o];
           isStopped := isStopped b; hasError := hasError b;
           thrownError := thrownError b |},
        [(o, Next (_value b))]).

Fixpoint arrRemove (o : nat) (os : list nat) : list nat :=
  match os with
  | [] => []
  | o' :: os' => if decide (o' = o) then os' else o' :: arrRemove o os'
  end.

(** [subscription.unsubscribe()] *)
Definition unsubscribe (o : nat) (b : BehaviorSubject) : BehaviorSubject :=
  {| _value := _value b; observers := arrRemove o (observers b);
     isStopped := isStopped b; hasError := hasError b;
     thrownError := thrownError b |}.

End Subject.

(** ** The state of the running application *)

(** What has happened so far.  [Initiated], [Settled] and [Published] carry
    the number of the [load] call they belong to. *)
Inductive event :=
| Initiated (l : nat) (e : endpoint)
| Settled (l : nat) (e : endpoint) (o : outcome)
| Published (l : nat) (c : channel) (v : value)
| Delivered (c : channel) (o : nat) (n : notification)
| Unhandled (p : promise) (reason : value).

Record state := {
  packagesSubj : BehaviorSubject;
  dbInfoSubj : BehaviorSubject;
  upgradeableSubj : BehaviorSubject;
  console : list value;             (* the lines of console.log, oldest first *)
  pending : list (nat * endpoint);  (* API promises in flight *)
  loads : nat;                      (* calls of load() so far *)
  trace : list event                (* the history, newest first *)
}.

(** The field initializers of the class. *)
Definition initial (c : channel) : value :=
  match c with
  | Packages => VArr []
  | DbInfo => VObj []
  | Upgradable =>
      VObj [("mmpm", VBool false); ("MagicMirror", VBool false);
            ("packages", VArr [])]%string
  end.

(** [new SharedStoreService(mmPkgApi)] *)
Definition init : state :=
  {| packagesSubj := Subject.new (initial Packages);
     dbInfoSubj := Subject.new (initial DbInfo);
     upgradeableSubj := Subject.new (initial Upgradable);
     console := []; pending := []; loads := 0%nat; trace := [] |}.

Definition subj (c : channel) (s : state) : BehaviorSubject :=
  match c with
  | Packages => packagesSubj s
  | DbInfo => dbInfoSubj s
  | Upgradable => upgradeableSubj s
  end.

Definition set_subj (c : channel) (b : BehaviorSubject) (s : state) : state :=
  {| packagesSubj := if decide (c = Packages) then b else packagesSubj s;
     dbInfoSubj := if decide (c = DbInfo) then b else dbInfoSubj s;
     upgradeableSubj := if decide (c = Upgradable) then b else upgradeableSubj s;
     console := console s; pending := pending s; loads := loads s;
     trace := trace s |}.

Definition set_pending (p : list (nat * endpoint)) (s : state) : state :=
  {| packagesSubj := packagesSubj s; dbInfoSubj := dbInfoSubj s;
     upgradeableSubj := upgradeableSubj s; console := console s;
     pending := p; loads := loads s; trace := trace s |}.

Definition set_loads (n : nat) (s : state) : state :=
  {| packagesSubj := packagesSubj s; dbInfoSubj := dbInfoSubj s;
     upgradeableSubj := upgradeableSubj s; console := console s;
     pending := pending s; loads := n; trace := trace s |}.

(** [console.log(v)] *)
Definition log (v : value) (s : state) : state :=
  {| packagesSubj := packagesSubj s; dbInfoSubj := dbInfoSubj s;
     upgradeableSubj := upgradeableSubj s; console := console s ++ [v];
     pending := pending s; loads := loads s; trace := trace s |}.

(** Record events, given oldest first. *)
Definition emit (evs : list event) (s : state) : state :=
  {| packagesSubj := packagesSubj s; dbInfoSubj := dbInfoSubj s;
     upgradeableSubj := upgradeableSubj s; console := console s;
     pending := pending s; loads := loads s; trace := reverse evs ++ trace s |}.

Definition deliveries (c : channel) (ns : list (nat * notification)) : list event :=
  (λ on, Delivered c on.1 on.2) <$> ns.

(** ** SharedStoreService *)

(** [this.<c>Subj.next(v)], called by [load] number [l]. *)
Definition publish (l : nat) (c : channel) (v : value) (s : state) : state :=
  let '(b, ns) := Subject.next v (subj c s) in
  emit (deliveries c ns) (emit [Published l c v] (set_subj c b s)).

(** [this.<c>.subscribe(o)] from a component. *)
Definition subscribe (c : channel) (o : nat) (s : state) : state :=
  let '(b, ns) := Subject.subscribe o (subj c s) in
  emit (deliveries c ns) (set_subj c b s).

Definition unsubscribe (c : channel) (o : nat) (s : state) : state :=
  set_subj c (Subject.unsubscribe o (subj c s)) s.

(** An API call of [load] number [l]: its promise is now in flight, with the
    [.then] callback of that endpoint attached. *)
Definition initiate (l : nat) (e : endpoint) (s : state) : state :=
  emit [Initiated l e] (set_pending (pending s ++ [(l, e)]) s).

(** [public load(): void] *)
Definition load (s : state) : state * completion :=
  let l := loads s in
  let s := set_loads (S l) s in
  let s := log (VStr "Getting packages for data store") s in
  let s := initiate l GetPackages s in
  (s, Return VUndefined).

(** The callback of [get_("db/info").then] *)
Definition on_dbInfo (l : nat) (response : APIResponse) (s : state) : state :=
  if code response =? 200
  then publish l DbInfo (message response) s
  else log (message response) s.

(** The callback of [get_("db/upgradable").then] *)
Definition on_upgradable (l : nat) (response : APIResponse) (s : state) : state :=
  if code response =? 200
  then publish l Upgradable (message response) s
  else log (message response) s.

(** The callback of [getPackages().then] *)
Definition on_packages (l : nat) (response : APIResponse) (s : state) : state :=
  let s :=
    if code response =? 200
    then log (VStr "Retrieved packages") (publish l Packages (message response) s)
    else log (message response) s in
  let s := initiate l GetDbInfo s in
  initiate l GetDbUpgradable s.

Definition callback (e : endpoint) : nat → APIResponse → state → state :=
  match e with
  | GetPackages => on_packages
  | GetDbInfo => on_dbInfo
  | GetDbUpgradable => on_upgradable
  end.

(** The channel an endpoint feeds. *)
Definition feeds (e : endpoint) : channel :=
  match e with
  | GetPackages => Packages
  | GetDbInfo => DbInfo
  | GetDbUpgradable => Upgradable
  end.

(** The promise of call [e] of [load] number [l] settles: it leaves the
    promises in flight and its [.then] callback runs.  No [.then] of
    [load] has a rejection handler and no promise has a [.catch]: a rejection
    skips the callback and rejects the derived promise, which nobody holds. *)
Definition resolve (l : nat) (e : endpoint) (o : outcome) (s : state) : state :=
  let s := set_pending (filter (λ p, p ≠ (l, e)) (pending s)) s in
  let s := emit [Settled l e o] s in
  match o with
  | Fulfilled response => callback e l response s
  | Rejected reason => emit [Unhandled (PThen l e) reason] s
  end.

(** Only a promise in flight can settle. *)
Definition settle (l : nat) (e : endpoint) (o : outcome) (s : state) : option state :=
  if decide ((l, e) ∈ pending s) then Some (resolve l e o s) else None.

(** ** The transition system *)

Inductive action :=
| CallLoad
| Subscribe (c : channel) (o : nat)
| Unsubscribe (c : channel) (o : nat)
| Settle (l : nat) (e : endpoint) (o : outcome).

Definition step (a : action) (s : state) : option state :=
  match a with
  | CallLoad => Some (load s).1
  | Subscribe c o => Some (subscribe c o s)
  | Unsubscribe c o => Some (unsubscribe c o s)
  | Settle l e o => settle l e o s
  end.

Fixpoint run (acts : list action) (s : state) : option state :=
  match acts with
  | [] => Some s
  | a :: acts => s' ← step a s; run acts s'
  end.

Inductive reachable : state → Prop :=
| reachable_init : reachable init
| reachable_step s a s' : reachable s → step a s = Some s' → reachable s'.

(** One [load] call on its own, run until nothing is left in flight.  [api]
    says how the API would settle each of the three calls ([None]: never);
    [dbFirst] says which of the two inner calls settles first. *)
Definition settle_if (l : nat) (e : endpoint) (o : option outcome) : list action :=
  match o with
  | Some o => [Settle l e o]
  | None => []
  end.

Definition schedule (api : endpoint → option outcome) (dbFirst : bool) (l : nat)
  : list action :=
  CallLoad ::
  match api GetPackages with
  | Some (Fulfilled r) =>
      Settle l GetPackages (Fulfilled r) ::
      (if dbFirst
       then settle_if l GetDbInfo (api GetDbInfo)
              ++ settle_if l GetDbUpgradable (api GetDbUpgradable)
       else settle_if l GetDbUpgradable (api GetDbUpgradable)
              ++ settle_if l GetDbInfo (api GetDbInfo))
  | o => settle_if l GetPackages o
  end.

Definition load_run (api : endpoint → option outcome) (dbFirst : bool) (s : state)
  : option state :=
  run (schedule api dbFirst (loads s)) s.

(** ** The start-up hook (app.module.ts) *)

Inductive member :=
| Callable (m : state → state * completion)
| Data.

(** The members of a [SharedStoreService] instance. *)
Definition SharedStoreService : gmap string member :=
  list_to_map
    [("mmPkgApi", Data); ("packagesSubj", Data); ("packages", Data);
     ("dbInfoSubj", Data); ("dbInfo", Data); ("upgradeableSubj", Data);
     ("upgradable", Data); ("load", Callable load)]%string.

(** A [TypeError] object.  The text of its message is the engine's. *)
Definition TypeError (msg : string) : value :=
  VObj [("name", VStr "TypeError"); ("message", VStr msg)]%string.

(** [obj.name()].  Calling what is no function throws a [TypeError];
    [wording] is how the JavaScript engine words it for the member called,
    which the program does not decide. *)
Definition invoke (wording : string → string) (obj : gmap string member)
  (name : string) (s : state) : state * completion :=
  match obj !! name with
  | Some (Callable m) => m s
  | _ => (s, Throw (TypeError (wording name)))
  end.

(** [export function init_shared_store(store) { return () => store.get_packages(); }],
    run by an engine with that [wording]. *)
Definition init_shared_store (wording : string → string)
  (store : gmap string member) : unit → state → state * completion :=
  λ _, invoke wording store "get_packages".

(** Modelled from the spec: the hosting runtime (Angular's APP_INITIALIZER) is
    not among the sources.  It "is contracted to block bootstrap completion
    until the operation settles": it waits for the asynchronous operation a
    hook returns, and has nothing to wait for otherwise. *)
Definition awaited (c : completion) : option promise :=
  match c with
  | Return (VPromise p) => Some p
  | _ => None
  end.

(** ** Reading the history *)

(** The value most recently published on a channel, or the channel's initial
    value when nothing was published. *)
Fixpoint latest (c : channel) (tr : list event) : value :=
  match tr with
  | [] => initial c
  | Published _ c' v :: older => if decide (c' = c) then v else latest c older
  | _ :: older => latest c older
  end.

(** The API calls that [load] number [l] has made, newest first. *)
Fixpoint initiated (l : nat) (tr : list event) : list endpoint :=
  match tr with
  | [] => []
  | Initiated l' e :: older =>
      if decide (l' = l) then e :: initiated l older else initiated l older
  | _ :: older => initiated l older
  end.

Definition value_of (c : channel) (s : state) : value := _value (subj c s).

Definition is_delivery (c : channel) (v : value) (ev : event) : Prop :=
  ∃ o, ev = Delivered c o (Next v).

(** ** What every event of a history rests on *)

(** [guard ev older]: what must have happened before [ev]. *)
Definition guard (ev : event) (older : list event) : Prop :=
  match ev with
  | Initiated l GetPackages => True
  | Initiated l _ => ∃ r, Settled l GetPackages (Fulfilled r) ∈ older
  | Settled l e o => Initiated l e ∈ older
  | Published l c v =>
      (∃ e r, feeds e = c ∧ code r = 200 ∧ message r = v
              ∧ Settled l e (Fulfilled r) ∈ older)
      ∧ (c = Packages → ∀ c' v', Published l c' v' ∈ older → c' = Packages)
  | Delivered c o n => n = Next (latest c older)
  | Unhandled p reason =>
      ∃ l e, p = PThen l e ∧ Settled l e (Rejected reason) ∈ older
  end.

(** Every event of the history has what it rests on before it. *)
Fixpoint justified (tr : list event) : Prop :=
  match tr with
  | [] => True
  | ev :: older => guard ev older ∧ justified older
  end.

(** What holds of every state the application can be in. *)
Record invariant (s : state) : Prop := {
  inv_running c : isStopped (subj c s) = false ∧ hasError (subj c s) = false;
  inv_latest c : value_of c s = latest c (trace s);
  inv_pending l e : (l, e) ∈ pending s → (l < loads s)%nat;
  inv_called l e : (l, e) ∈ pending s → Initiated l e ∈ trace s;
  inv_fresh l : (loads s ≤ l)%nat → initiated l (trace s) = [];
  inv_first l : (l, GetPackages) ∈ pending s → initiated l (trace s) = [GetPackages];
  inv_order l :
    initiated l (trace s)
      ∈ [[]; [GetPackages]; [GetDbUpgradable; GetDbInfo; GetPackages]];
  inv_history : justified (trace s);
  inv_logged l e r :
    Settled l e (Fulfilled r) ∈ trace s → code r ≠ 200 → message r ∈ console s
}.

(** ** The effect of a settlement, in closed form *)

(** The calls a callback makes. *)
Definition followups (l : nat) (e : endpoint) (o : outcome) : list (nat * endpoint) :=
  match o, e with
  | Fulfilled _, GetPackages => [(l, GetDbInfo); (l, GetDbUpgradable)]
  | _, _ => []
  end.

(** The lines a callback logs. *)
Definition lines (e : endpoint) (o : outcome) : list value :=
  match o with
  | Fulfilled r =>
      if code r =? 200
      then match e with GetPackages => [VStr "Retrieved packages"] | _ => [] end
      else [message r]
  | Rejected _ => []
  end.

(** What a settlement adds to the history between its [Settled] event and
    the follow-up calls, newest first. *)
Definition announced (l : nat) (e : endpoint) (o : outcome) (s : state) : list event :=
  match o with
  | Fulfilled r =>
      if code r =? 200
      then reverse (deliveries (feeds e)
                      (Subject.next (message r) (subj (feeds e) s)).2)
             ++ [Published l (feeds e) (message r)]
      else []
  | Rejected reason => [Unhandled (PThen l e) reason]
  end.

(** An event that is no publish on channel [c]. *)
Definition quiet (c : channel) (ev : event) : Prop :=
  match ev with Published _ c' _ => c' ≠ c | _ => True end.

(** An event that is no call of [load] number [l]. *)
Definition not_call (l : nat) (ev : event) : Prop :=
  match ev with Initiated l' _ => l' ≠ l | _ => True end.

(** The value an action puts on channel [c], if it puts one. *)
Definition publishes (c : channel) (a : action) : option value :=
  match a with
  | Settle _ e (Fulfilled r) =>
      if (code r =? 200) && bool_decide (feeds e = c) then Some (message r)
      else None
  | _ => None
  end.

(** What a settlement adds to the history, newest first. *)
Definition news (l : nat) (e : endpoint) (o : outcome) (s : state) : list event :=
  ((λ p, Initiated p.1 p.2) <$> reverse (followups l e o))
    ++ announced l e o s ++ [Settled l e o].

(** ** Concrete payloads, answers and runs *)

Definition catalog : value :=
  VArr [VObj [("title", VStr "MMM-Clock"); ("category", VStr "Utility")]]%string.

Definition details : value := VObj [("categories", VNum 12)]%string.

Definition upgrades : value :=
  VObj [("mmpm", VBool true); ("MagicMirror", VBool false);
        ("packages", VArr [])]%string.

Definition ok (v : value) : APIResponse := {| code := 200; message := v |}.

Definition server_error : APIResponse :=
  {| code := 500; message := VStr "server error" |}.

(** The packages call fails on the network; the other two would succeed. *)
Definition outage (e : endpoint) : option outcome :=
  match e with
  | GetPackages => Some (Rejected (VStr "Network Error"))
  | GetDbInfo => Some (Fulfilled (ok details))
  | GetDbUpgradable => Some (Fulfilled (ok upgrades))
  end.

(** The packages call is answered with code 500, the upgradable call is
    rejected, the database-info call succeeds. *)
Definition flaky (e : endpoint) : option outcome :=
  match e with
  | GetPackages => Some (Fulfilled server_error)
  | GetDbInfo => Some (Fulfilled (ok details))
  | GetDbUpgradable => Some (Rejected (VStr "Network Error"))
  end.

(** A component subscribes to the packages, [load] is called, the packages
    arrive, the database info is refused. *)
Definition session : list action :=
  [Subscribe Packages 1; CallLoad; Settle 0 GetPackages (Fulfilled (ok catalog));
   Settle 0 GetDbInfo (Fulfilled server_error)].

Definition after_session : state :=
  Eval vm_compute in default init (run session init).

(** [load] is called and the packages call is refused. *)
Definition refused : list action :=
  [CallLoad; Settle 0 GetPackages (Fulfilled server_error)].

Definition after_refused : state :=
  Eval vm_compute in default init (run refused init).

(** ** More on histories, logs and runs *)

(** The value a run leaves on channel [c], from the value it starts with:
    each publish on [c] overwrites the one before. *)
Definition last_value (c : channel) (acts : list action) (v : value) : value :=
  foldl (λ v a, default v (publishes c a)) v acts.

(** What an event must not repeat: a promise settles once, and one [load]
    call publishes once on a channel. *)
Definition unrepeated (ev : event) (older : list event) : Prop :=
  match ev with
  | Settled l e _ => ∀ o, Settled l e o ∉ older
  | Published l c _ => ∀ v, Published l c v ∉ older
  | _ => True
  end.

Fixpoint once (tr : list event) : Prop :=
  match tr with
  | [] => True
  | ev :: older => unrepeated ev older ∧ once older
  end.

(** The three reasons for a line to be in the console. *)
Definition logged (v : value) (s : state) : Prop :=
  (v = VStr "Getting packages for data store" ∧ (0 < loads s)%nat)
  ∨ (v = VStr "Retrieved packages"
     ∧ ∃ l r, Settled l GetPackages (Fulfilled r) ∈ trace s ∧ code r = 200)
  ∨ (∃ l e r, Settled l e (Fulfilled r) ∈ trace s ∧ code r ≠ 200
              ∧ v = message r).

(** How the history accounts for the promises and for the console. *)
Record accounting (s : state) : Prop := {
  acc_unsettled l e : (l, e) ∈ pending s → ∀ o, Settled l e o ∉ trace s;
  acc_once : once (trace s);
  acc_published l e r :
    Settled l e (Fulfilled r) ∈ trace s → code r = 200 →
    Published l (feeds e) (message r) ∈ trace s;
  acc_unhandled l e reason :
    Settled l e (Rejected reason) ∈ trace s →
    Unhandled (PThen l e) reason ∈ trace s;
  acc_console v : v ∈ console s ↔ logged v s
}.

(** An event that repeats nothing, whatever came before. *)
Definition neutral (ev : event) : Prop :=
  match ev with
  | Settled _ _ _ | Published _ _ _ => False
  | _ => True
  end.

(** The calls of one [load] that this load makes, given what the API does. *)
Definition made (api : endpoint → option outcome) (e : endpoint) : Prop :=
  e = GetPackages ∨ ∃ r, api GetPackages = Some (Fulfilled r).

(** Two [load] calls overlap; the answer to the first arrives last. *)
Definition overlap : list action :=
  [CallLoad; CallLoad; Settle 1 GetPackages (Fulfilled (ok (VArr [])));
   Settle 0 GetPackages (Fulfilled (ok catalog))].

Definition after_overlap : state :=
  Eval vm_compute in default init (run overlap init).

(** [load] is called and the packages call fails on the network. *)
Definition rejection : list action :=
  [CallLoad; Settle 0 GetPackages (Rejected (VStr "Network Error"))].

Definition after_rejection : state :=
  Eval vm_compute in default init (run rejection init).

(** The packages and the database info arrive; the upgradable call is never
    answered. *)
Definition silent (e : endpoint) : option outcome :=
  match e with
  | GetPackages => Some (Fulfilled (ok catalog))
  | GetDbInfo => Some (Fulfilled (ok details))
  | GetDbUpgradable => None
  end.

Definition after_silence : state :=
  Eval vm_compute in default init (load_run silent true init).

(** * Properties *)

Section basics.
Implicit Types (s : state) (c : channel) (e : endpoint) (l : nat).

Lemma subj_set_subj c c' b s :
  subj c (set_subj c' b s) = if decide (c' = c) then b else subj c s.
Proof. by destruct c, c'. Qed.

Lemma latest_app_deliveries c c' v new tr :
  Forall (is_delivery c' v) new → latest c (new ++ tr) = latest c tr.
Proof.
  induction 1 as [|ev new [o ->] _ IH]; [done|]. simpl. exact IH.
Qed.

(** What [next] sends, as it lies in the trace. *)
Lemma notes_deliveries c v b :
  Forall (is_delivery c v) (reverse (deliveries c (Subject.next v b).2)).
Proof.
  apply Forall_reverse. unfold deliveries. simpl.
  destruct (isStopped b); [constructor|].
  rewrite <- list_fmap_compose. apply Forall_fmap, Forall_true.
  intros o. by exists o.
Qed.

End basics.

(** ** Histories *)

Section history.
Implicit Types (s : state) (c : channel) (e : endpoint) (l : nat)
  (tr : list event).

Lemma justified_older t1 t2 : justified (t1 ++ t2) → justified t2.
Proof. induction t1 as [|? ? IH]; simpl; [done|]. intros [_ ?]. auto. Qed.

Lemma justified_split t1 ev t2 : justified (t1 ++ ev :: t2) → guard ev t2.
Proof. intros Hj%justified_older. apply Hj. Qed.

Lemma justified_deliveries c v new tr :
  Forall (is_delivery c v) new → latest c tr = v →
  justified tr → justified (new ++ tr).
Proof.
  intros Hnew Hv Htr. induction Hnew as [|ev new [o ->] Hnew IH]; [done|].
  simpl. split; [|exact IH].
  by rewrite (latest_app_deliveries c c v new tr Hnew), Hv.
Qed.

Lemma elem_of_initiated l e tr : Initiated l e ∈ tr → e ∈ initiated l tr.
Proof.
  induction tr as [|ev tr IH]; [by intros ?%elem_of_nil|].
  intros [<-|Hin]%elem_of_cons.
  - simpl. rewrite decide_True by done. left.
  - specialize (IH Hin). destruct ev; simpl; try done.
    case_decide; [by right|done].
Qed.

(** A publish of [load] number [l] on channel [c] rests on the call of the
    endpoint that feeds [c]. *)
Lemma published_initiated l c v tr :
  justified tr → Published l c v ∈ tr →
  ∃ e, feeds e = c ∧ Initiated l e ∈ tr.
Proof.
  intros Hj (t1 & t2 & ->)%list_elem_of_split.
  destruct (justified_split _ _ _ Hj) as [(e & r & Hc & _ & _ & Hs) _].
  apply list_elem_of_split in Hs as (t3 & t4 & ->).
  apply justified_older in Hj as [_ Hj]. apply justified_split in Hj.
  exists e. split; [done|]. simpl in Hj. set_solver.
Qed.

End history.

(** ** The effect of a settlement, field by field *)

Ltac store_simpl :=
  cbn [load resolve callback on_packages on_dbInfo on_upgradable publish
       initiate log emit set_pending set_loads value_of trace pending console
       loads fst snd reverse rev_append app Subject.next _value observers
       isStopped hasError thrownError] in *.

Ltac callback_cases e r :=
  destruct e; unfold resolve, callback, on_packages, on_dbInfo, on_upgradable;
  destruct (code r =? 200) eqn:?; store_simpl.

Section effects.
Implicit Types (s : state) (c : channel) (e : endpoint) (l : nat)
  (o : outcome).

Lemma subj_emit c evs s : subj c (emit evs s) = subj c s.
Proof. by destruct c. Qed.

Lemma loads_resolve l e o s : loads (resolve l e o s) = loads s.
Proof.
  destruct o as [r|]; [|done].
  by callback_cases e r.
Qed.

Lemma pending_resolve l e o s :
  pending (resolve l e o s)
  = filter (λ p, p ≠ (l, e)) (pending s) ++ followups l e o.
Proof.
  destruct o as [r|]; [|by rewrite app_nil_r].
  callback_cases e r; rewrite <- ?app_assoc, ?app_nil_r; done.
Qed.

Lemma console_resolve l e o s :
  console (resolve l e o s) = console s ++ lines e o.
Proof.
  destruct o as [r|]; [|by rewrite app_nil_r].
  unfold lines; callback_cases e r; rewrite ?app_nil_r; done.
Qed.

Lemma trace_resolve l e o s :
  trace (resolve l e o s)
  = ((λ p, Initiated p.1 p.2) <$> reverse (followups l e o))
      ++ announced l e o s ++ Settled l e o :: trace s.
Proof.
  destruct o as [r|]; [|done].
  unfold announced; callback_cases e r; rewrite <- ?app_assoc; done.
Qed.

Lemma subj_resolve c l e o s :
  subj c (resolve l e o s)
  = match o with
    | Fulfilled r =>
        if (code r =? 200) && bool_decide (feeds e = c)
        then (Subject.next (message r) (subj c s)).1
        else subj c s
    | Rejected _ => subj c s
    end.
Proof.
  destruct o as [r|]; [|by destruct c].
  callback_cases e r; by destruct c.
Qed.

End effects.

(** ** The invariant holds in every reachable state *)

Section preservation.
Implicit Types (s : state) (c : channel) (e : endpoint) (l : nat)
  (o : outcome) (tr : list event).

Lemma latest_quiet c new tr : Forall (quiet c) new → latest c (new ++ tr) = latest c tr.
Proof.
  induction 1 as [|ev new Hev _ IH]; [done|].
  destruct ev; simpl in *; try done. by rewrite decide_False.
Qed.

Lemma initiated_not_call l new tr :
  Forall (not_call l) new → initiated l (new ++ tr) = initiated l tr.
Proof.
  induction 1 as [|ev new Hev _ IH]; [done|].
  destruct ev; simpl in *; try done. by rewrite decide_False.
Qed.

Lemma announced_not_call l' l e o s : Forall (not_call l') (announced l e o s).
Proof.
  destruct o as [r|]; unfold announced; [|by repeat constructor].
  destruct (code r =? 200); [|constructor].
  apply Forall_app. split; [|by repeat constructor].
  eapply Forall_impl; [apply notes_deliveries|]. by intros ? [? ->].
Qed.

Lemma announced_quiet c l e o s :
  (∀ r, o = Fulfilled r → code r = 200 → feeds e ≠ c) →
  Forall (quiet c) (announced l e o s).
Proof.
  intros Hc. destruct o as [r|]; unfold announced; [|by repeat constructor].
  destruct (code r =? 200) eqn:Hr; [|constructor].
  apply Forall_app. split.
  - eapply Forall_impl; [apply notes_deliveries|]. by intros ? [? ->].
  - repeat constructor. simpl. apply (Hc r); [done|lia].
Qed.

Lemma latest_announced c l e r s tr :
  code r = 200 → feeds e = c →
  latest c (announced l e (Fulfilled r) s ++ tr) = message r.
Proof.
  intros Hr <-. unfold announced.
  rewrite (proj2 (Z.eqb_eq _ _) Hr), <- app_assoc.
  rewrite (latest_app_deliveries _ _ _ _ _ (notes_deliveries _ _ _)).
  simpl. by rewrite decide_True.
Qed.

Lemma invariant_init : invariant init.
Proof.
  split; cbn; try done.
  - by intros [].
  - by intros [].
  - intros ? ? ?%elem_of_nil; done.
  - intros ? ? ?%elem_of_nil; done.
  - intros ? ?%elem_of_nil; done.
  - intros; apply list_elem_of_here.
  - intros ? ? ? ?%elem_of_nil; done.
Qed.

Lemma invariant_load s : invariant s → invariant (load s).1.
Proof.
  intros [Hrun Hlat Hpen Hcall Hfresh Hfirst Hord Hhist Hlog].
  split; store_simpl.
  - intros c. specialize (Hrun c). by destruct c.
  - intros c. specialize (Hlat c). by destruct c.
  - intros l e. rewrite elem_of_app, list_elem_of_singleton.
    intros [?%Hpen|[= -> _]]; lia.
  - intros l e. rewrite elem_of_app, list_elem_of_singleton.
    intros [?%Hcall|[= -> ->]]; [by right|left].
  - intros l ?. simpl. rewrite decide_False by lia. apply Hfresh. lia.
  - intros l. rewrite elem_of_app, list_elem_of_singleton. simpl.
    intros [Hin|[= ->]].
    + rewrite decide_False; [by apply Hfirst|]. apply Hpen in Hin. lia.
    + rewrite decide_True by done. by rewrite Hfresh.
  - intros l. simpl. case_decide as Hl; [|apply Hord]. subst l.
    rewrite Hfresh by done. apply list_elem_of_further, list_elem_of_here.
  - done.
  - intros l e r [?|?]%elem_of_cons ?; [done|]. rewrite elem_of_app. left. eauto.
Qed.

Lemma calls_quiet c l e o :
  Forall (quiet c) ((λ p, Initiated p.1 p.2) <$> reverse (followups l e o)).
Proof. destruct o, e; by repeat constructor. Qed.

Lemma calls_not_call l' l e o :
  l ≠ l' →
  Forall (not_call l') ((λ p, Initiated p.1 p.2) <$> reverse (followups l e o)).
Proof. destruct o, e; by repeat constructor. Qed.

Lemma initiated_resolve_other l' l e o s :
  l ≠ l' ∨ followups l e o = [] →
  initiated l' (trace (resolve l e o s)) = initiated l' (trace s).
Proof.
  intros Hl. rewrite trace_resolve.
  rewrite (initiated_not_call l' (_ <$> _)).
  - by rewrite (initiated_not_call _ _ _ (announced_not_call _ _ _ _ _)).
  - destruct Hl as [?| ->]; [by apply calls_not_call|constructor].
Qed.

Lemma invariant_resolve l e o s :
  invariant s → (l, e) ∈ pending s → invariant (resolve l e o s).
Proof.
  intros [Hrun Hlat Hpen Hcall Hfresh Hfirst Hord Hhist Hlog] Hin.
  split.
  - intros c. rewrite subj_resolve. destruct o as [r|]; [|apply Hrun].
    destruct (_ && _); [|apply Hrun]. cbn. apply Hrun.
  - intros c. unfold value_of. rewrite subj_resolve, trace_resolve.
    rewrite (latest_quiet _ _ _ (calls_quiet _ _ _ _)).
    destruct o as [r|reason]; [|apply Hlat].
    destruct (code r =? 200) eqn:Hr; [destruct (decide (feeds e = c)) as [Hc|Hc]|].
    + rewrite bool_decide_true by done. cbn [andb fst Subject.next _value].
      rewrite latest_announced; [done|lia|done].
    + rewrite bool_decide_false by done. cbn [andb].
      rewrite latest_quiet; [apply Hlat|]. apply announced_quiet. by intros ? [= <-].
    + cbn [andb]. rewrite latest_quiet; [apply Hlat|]. apply announced_quiet.
      intros ? [= <-]. lia.
  - intros l' e'. rewrite loads_resolve, pending_resolve, elem_of_app.
    intros [[_ ?]%list_elem_of_filter|Hf]; [eauto|].
    apply Hpen in Hin. destruct o, e; set_solver.
  - intros l' e'. rewrite pending_resolve, trace_resolve, !elem_of_app.
    intros [[_ ?%Hcall]%list_elem_of_filter|Hf].
    + right. right. by right.
    + left. destruct o, e; set_solver.
  - intros l' Hl'. rewrite loads_resolve in Hl'.
    rewrite initiated_resolve_other; [by apply Hfresh|].
    left. apply Hpen in Hin. lia.
  - intros l'. rewrite pending_resolve, elem_of_app.
    intros [[Hne Hl']%list_elem_of_filter|Hf].
    + rewrite initiated_resolve_other; [by apply Hfirst|].
      destruct o, e; try (by right). left. congruence.
    + destruct o, e; set_solver.
  - intros l'. destruct (decide (l = l')) as [<-|Hne];
      [|rewrite initiated_resolve_other by (by left); apply Hord].
    destruct (followups l e o) eqn:Hf;
      [rewrite initiated_resolve_other by (by right); apply Hord|].
    destruct o as [r|], e; try done. clear Hf.
    rewrite trace_resolve. cbn [followups reverse rev_append fmap list_fmap app fst snd].
    cbn [initiated]. rewrite !decide_True by done.
    rewrite (initiated_not_call _ _ _ (announced_not_call _ _ _ _ _)).
    cbn [initiated]. rewrite (Hfirst _ Hin). set_solver.
  - rewrite trace_resolve.
    assert (justified (Settled l e o :: trace s)) as Hs.
    { split; [by apply Hcall|done]. }
    assert (justified (announced l e o s ++ Settled l e o :: trace s)) as Ha.
    { destruct o as [r|reason]; unfold announced.
      - destruct (code r =? 200) eqn:Hr; [|done]. rewrite <- app_assoc.
        apply (justified_deliveries (feeds e) (message r));
          [apply notes_deliveries|simpl; by rewrite decide_True|].
        split; [|exact Hs]. split.
        + exists e, r. repeat split; [lia|left].
        + intros Hc c' v' [?|Hp]%elem_of_cons; [done|].
          destruct e; try done.
          destruct (published_initiated _ _ _ _ Hhist Hp)
            as (e' & <- & Hi%elem_of_initiated).
          rewrite (Hfirst _ Hin) in Hi.
          by apply list_elem_of_singleton in Hi as ->.
      - split; [|exact Hs]. exists l, e. split; [done|left]. }
    destruct o as [r|reason]; [|done]. destruct e; try done.
    cbn [followups reverse rev_append fmap list_fmap app fst snd justified guard].
    repeat split; [| |done]; exists r.
    + right. rewrite elem_of_app. right. left.
    + rewrite elem_of_app. right. left.
  - intros l' e' r. rewrite trace_resolve, console_resolve, !elem_of_app.
    intros [Hc|[Ha|[Heq|Hold]%elem_of_cons]] Hr.
    + destruct o, e; set_solver.
    + exfalso. destruct o as [r'|]; unfold announced in Ha.
      * destruct (code r' =? 200); [|set_solver].
        apply elem_of_app in Ha as [Ha|Ha]; [|set_solver].
        pose proof (notes_deliveries (feeds e) (message r') (subj (feeds e) s)) as Hd.
        rewrite Forall_forall in Hd. by destruct (Hd _ Ha).
      * set_solver.
    + right. injection Heq as <- <- <-. unfold lines.
      rewrite (proj2 (Z.eqb_neq _ _) Hr). left.
    + left. eauto.
Qed.

End preservation.

Section reachability.
Implicit Types (s : state) (c : channel) (e : endpoint) (l : nat).

(** A subject that is running takes a subscriber and replays its value. *)
Lemma subscribe_running c o s :
  isStopped (subj c s) = false → hasError (subj c s) = false →
  subscribe c o s
  = emit [Delivered c o (Next (value_of c s))]
      (set_subj c
         {| _value := value_of c s; observers := observers (subj c s) ++ [o];
            isStopped := false; hasError := false;
            thrownError := thrownError (subj c s) |} s).
Proof.
  intros Hs He. unfold subscribe, Subject.subscribe. by rewrite He, Hs.
Qed.

Lemma invariant_subscribe c o s : invariant s → invariant (subscribe c o s).
Proof.
  intros [Hrun Hlat Hpen Hcall Hfresh Hfirst Hord Hhist Hlog].
  destruct (Hrun c) as [Hs He]. rewrite subscribe_running by done.
  split; cbn [emit trace pending console loads reverse rev_append app].
  - intros c'. rewrite subj_emit, subj_set_subj. case_decide; [done|apply Hrun].
  - intros c'. unfold value_of. rewrite subj_emit, subj_set_subj. simpl.
    case_decide as Hc; [subst c'|]; apply Hlat.
  - done.
  - intros l e ?. right. by apply Hcall.
  - done.
  - done.
  - done.
  - split; [|done]. simpl. by rewrite Hlat.
  - intros l e r [?|?]%elem_of_cons; [done|]. eauto.
Qed.

Lemma invariant_unsubscribe c o s : invariant s → invariant (unsubscribe c o s).
Proof.
  intros [Hrun Hlat Hpen Hcall Hfresh Hfirst Hord Hhist Hlog].
  unfold unsubscribe. split; try done.
  - intros c'. rewrite subj_set_subj. case_decide; [subst c'|]; apply Hrun.
  - intros c'. unfold value_of. rewrite subj_set_subj.
    case_decide; [subst c'|]; apply Hlat.
Qed.

Lemma invariant_step a s s' : invariant s → step a s = Some s' → invariant s'.
Proof.
  intros Hs. destruct a as [|c o|c o|l e o]; simpl.
  - intros [= <-]. by apply invariant_load.
  - intros [= <-]. by apply invariant_subscribe.
  - intros [= <-]. by apply invariant_unsubscribe.
  - unfold settle. case_decide; [|done]. intros [= <-].
    by apply invariant_resolve.
Qed.

Lemma reachable_invariant s : reachable s → invariant s.
Proof.
  induction 1 as [|s a s' _ IH Hstep]; [apply invariant_init|].
  by eapply invariant_step.
Qed.

Lemma reachable_run acts s s' : reachable s → run acts s = Some s' → reachable s'.
Proof.
  revert s. induction acts as [|a acts IH]; intros s Hs; simpl.
  - by intros [= <-].
  - destruct (step a s) as [s1|] eqn:Hstep; [|done].
    simpl. apply IH. by eapply reachable_step.
Qed.

End reachability.

(** ** Executions *)

Section executions.
Implicit Types (s : state) (c : channel) (e : endpoint) (l : nat)
  (o : outcome) (a : action) (acts : list action).

Lemma settle_pending l e o s :
  (l, e) ∈ pending s → settle l e o s = Some (resolve l e o s).
Proof. intros. unfold settle. by rewrite decide_True. Qed.

Lemma step_value c a s s' :
  step a s = Some s' →
  value_of c s' = default (value_of c s) (publishes c a).
Proof.
  unfold value_of. destruct a as [|c' o|c' o|l e o]; simpl.
  - intros [= <-]. by destruct c.
  - intros [= <-]. unfold subscribe, Subject.subscribe.
    destruct (hasError (subj c' s)), (isStopped (subj c' s)); cbv beta iota;
      rewrite subj_emit, subj_set_subj; by case_decide; subst.
  - intros [= <-]. unfold unsubscribe. rewrite subj_set_subj.
    by case_decide; subst.
  - unfold settle. case_decide; [|done]. intros [= <-].
    rewrite subj_resolve. destruct o as [r|]; [|done].
    by destruct (_ && _).
Qed.

Lemma run_value_unchanged c acts s s' :
  run acts s = Some s' → Forall (λ a, publishes c a = None) acts →
  value_of c s' = value_of c s.
Proof.
  revert s. induction acts as [|a acts IH]; intros s; simpl.
  - by intros [= <-].
  - destruct (step a s) as [s1|] eqn:Hstep; [|done]. simpl.
    intros Hrun [Ha Hacts]%Forall_cons.
    rewrite (IH _ Hrun Hacts), (step_value c _ _ _ Hstep), Ha. done.
Qed.

Lemma run_app acts1 acts2 s :
  run (acts1 ++ acts2) s = run acts1 s ≫= run acts2.
Proof.
  revert s. induction acts1 as [|a acts1 IH]; intros s; simpl; [done|].
  destruct (step a s); simpl; [apply IH|done].
Qed.

(** A channel ends an execution with the last value put on it. *)
Lemma run_value_last c acts1 a acts2 v s s' :
  run (acts1 ++ a :: acts2) s = Some s' → publishes c a = Some v →
  Forall (λ a, publishes c a = None) acts2 →
  value_of c s' = v.
Proof.
  rewrite run_app. destruct (run acts1 s) as [s1|]; [|done]. simpl.
  destruct (step a s1) as [s2|] eqn:Hstep; [|done]. simpl.
  intros Hrun Ha Hacts.
  rewrite (run_value_unchanged _ _ _ _ Hrun Hacts).
  by rewrite (step_value c _ _ _ Hstep), Ha.
Qed.

Lemma step_trace a s s' :
  step a s = Some s' → ∃ new, trace s' = new ++ trace s.
Proof.
  destruct a as [|c' o|c' o|l e o]; simpl.
  - intros [= <-]. by exists [Initiated (loads s) GetPackages].
  - intros [= <-]. unfold subscribe.
    destruct (Subject.subscribe _ _) as [b ns]. by eexists.
  - intros [= <-]. by exists [].
  - unfold settle. case_decide; [|done]. intros [= <-].
    rewrite trace_resolve.
    exists (((λ p, Initiated p.1 p.2) <$> reverse (followups l e o))
              ++ announced l e o s ++ [Settled l e o]).
    by rewrite <- !app_assoc.
Qed.

Lemma run_trace acts s s' :
  run acts s = Some s' → ∃ new, trace s' = new ++ trace s.
Proof.
  revert s. induction acts as [|a acts IH]; intros s; simpl.
  - intros [= <-]. by exists [].
  - destruct (step a s) as [s1|] eqn:Hstep; [|done]. simpl.
    intros (new2 & ->)%IH. apply step_trace in Hstep as (new1 & ->).
    exists (new2 ++ new1). by rewrite app_assoc.
Qed.

End executions.

(** ** One [load] call on its own *)

Section single_load.
Implicit Types (s : state) (c : channel) (e : endpoint) (l : nat)
  (o : outcome) (api : endpoint → option outcome).

Lemma run_settle l e o acts s :
  (l, e) ∈ pending s → run (Settle l e o :: acts) s = run acts (resolve l e o s).
Proof. intros Hin. simpl. by rewrite settle_pending. Qed.

Lemma pending_resolve_other l' e' l e o s :
  (l', e') ≠ (l, e) → (l', e') ∈ pending s → (l', e') ∈ pending (resolve l e o s).
Proof.
  intros. rewrite pending_resolve, elem_of_app, list_elem_of_filter. by left.
Qed.

Lemma pending_resolve_followup p l e o s :
  p ∈ followups l e o → p ∈ pending (resolve l e o s).
Proof. intros. rewrite pending_resolve, elem_of_app. by right. Qed.

Lemma pending_load s : (loads s, GetPackages) ∈ pending (load s).1.
Proof. store_simpl. rewrite elem_of_app, list_elem_of_singleton. by right. Qed.

Ltac in_flight :=
  first
    [ apply pending_load
    | apply pending_resolve_followup;
      first [apply list_elem_of_here
            |apply list_elem_of_further, list_elem_of_here]
    | apply pending_resolve_other; [congruence|in_flight] ].

(** Every call of the schedule is in flight when it settles: the run goes
    through. *)
Lemma load_run_total api dbFirst s : is_Some (load_run api dbFirst s).
Proof.
  unfold load_run, schedule. cbn [run step mbind option_bind].
  destruct (api GetPackages) as [[rp|reason]|], dbFirst,
    (api GetDbInfo) as [odb|], (api GetDbUpgradable) as [oup|];
    cbn [settle_if app];
    repeat (rewrite run_settle by in_flight); by eexists.
Qed.

(** The settlements of the schedule are those the API decides. *)
Lemma schedule_settles api dbFirst l l' e o :
  Settle l' e o ∈ schedule api dbFirst l → l' = l ∧ api e = Some o.
Proof.
  unfold schedule.
  destruct (api GetPackages) as [[rp|reason]|] eqn:Hp, dbFirst,
    (api GetDbInfo) as [odb|] eqn:Hdb,
    (api GetDbUpgradable) as [oup|] eqn:Hup; cbn [settle_if app];
    rewrite ?elem_of_cons, elem_of_nil; intros H;
    repeat (destruct H as [H|H]; try done); by simplify_eq.
Qed.

End single_load.

(** ** Settlements and runs, as the claims need them *)

#[global] Arguments resolve : simpl never.

Section settlement.
Implicit Types (s : state) (c : channel) (e : endpoint) (l : nat)
  (o : outcome).

Lemma trace_resolve_news l e o s :
  trace (resolve l e o s) = news l e o s ++ trace s.
Proof. rewrite trace_resolve. unfold news. by rewrite <- !app_assoc. Qed.

Lemma published_news l' c v l e o s :
  Published l' c v ∈ news l e o s
  ↔ ∃ r, o = Fulfilled r ∧ code r = 200 ∧ l' = l ∧ c = feeds e ∧ v = message r.
Proof.
  unfold news. rewrite !elem_of_app, list_elem_of_singleton. split.
  - intros [Hc|[Ha|?]]; [| |done].
    { exfalso. destruct o, e; set_solver. }
    destruct o as [r|]; unfold announced in Ha; [|set_solver].
    destruct (code r =? 200) eqn:Hr; [|set_solver].
    apply elem_of_app in Ha as [Ha|Ha].
    + pose proof (notes_deliveries (feeds e) (message r) (subj (feeds e) s)) as Hd.
      rewrite Forall_forall in Hd. by destruct (Hd _ Ha).
    + apply list_elem_of_singleton in Ha. injection Ha as -> -> ->.
      exists r. repeat split. lia.
  - intros (r & -> & Hr & -> & -> & ->). right. left. unfold announced.
    rewrite (proj2 (Z.eqb_eq _ _) Hr), elem_of_app, list_elem_of_singleton.
    by right.
Qed.

Lemma value_resolve_200 l e r s :
  code r = 200 → value_of (feeds e) (resolve l e (Fulfilled r) s) = message r.
Proof.
  intros Hr. unfold value_of. rewrite subj_resolve.
  by rewrite (proj2 (Z.eqb_eq _ _) Hr), bool_decide_true.
Qed.

(** Who is subscribed when a value is put on a channel receives it. *)
Lemma delivered_news l e r s sub :
  code r = 200 → isStopped (subj (feeds e) s) = false →
  sub ∈ observers (subj (feeds e) s) →
  Delivered (feeds e) sub (Next (message r)) ∈ news l e (Fulfilled r) s.
Proof.
  intros Hr Hs Ho. unfold news, announced.
  rewrite (proj2 (Z.eqb_eq _ _) Hr), !elem_of_app, elem_of_reverse.
  right. left. left. unfold deliveries, Subject.next. cbn [snd]. rewrite Hs.
  apply list_elem_of_fmap. exists (sub, Next (message r)). split; [done|].
  apply list_elem_of_fmap. by exists sub.
Qed.

Lemma latest_published c tr :
  latest c tr = initial c ∨ ∃ l, Published l c (latest c tr) ∈ tr.
Proof.
  induction tr as [|ev tr IH]; [by left|].
  assert (latest c tr = initial c ∨ ∃ l, Published l c (latest c tr) ∈ ev :: tr)
    as IH'.
  { destruct IH as [?|[l ?]]; [by left|]. right. exists l. by right. }
  destruct ev; simpl; try done.
  case_decide; [subst|done]. right. eexists. left.
Qed.

Lemma step_quiet c a s s' :
  step a s = Some s' → publishes c a = None →
  ∃ new, trace s' = new ++ trace s ∧ ∀ l v, Published l c v ∉ new.
Proof.
  destruct a as [|c' sub|c' sub|l e o]; simpl.
  - intros [= <-] _. exists [Initiated (loads s) GetPackages].
    split; [done|]. by intros l v ?%list_elem_of_singleton.
  - intros [= <-] _. unfold subscribe, Subject.subscribe.
    destruct (hasError (subj c' s)), (isStopped (subj c' s)); cbv beta iota;
      (eexists; split; [reflexivity|]);
      by intros l v ?%list_elem_of_singleton.
  - intros [= <-] _. exists []. split; [done|]. by intros l v ?%elem_of_nil.
  - unfold settle. case_decide; [|done]. intros [= <-] Hp.
    exists (news l e o s). split; [apply trace_resolve_news|].
    intros l' v (r & -> & Hr & _ & -> & _)%published_news.
    by rewrite (proj2 (Z.eqb_eq _ _) Hr), bool_decide_true in Hp.
Qed.

Lemma run_quiet c acts s s' :
  run acts s = Some s' → Forall (λ a, publishes c a = None) acts →
  ∃ new, trace s' = new ++ trace s ∧ ∀ l v, Published l c v ∉ new.
Proof.
  revert s. induction acts as [|a acts IH]; intros s; simpl.
  - intros [= <-] _. exists []. split; [done|]. by intros l v ?%elem_of_nil.
  - destruct (step a s) as [s1|] eqn:Hstep; [|done]. simpl.
    intros Hrun [Ha Hacts]%Forall_cons.
    destruct (IH _ Hrun Hacts) as (new2 & -> & H2).
    destruct (step_quiet c _ _ _ Hstep Ha) as (new1 & -> & H1).
    exists (new2 ++ new1). split; [by rewrite app_assoc|].
    intros l v [?|?]%elem_of_app; [by eapply H2|by eapply H1].
Qed.

(** A fulfilled call with code 200 leaves its publish in the history. *)
Lemma run_published acts s s' l e r :
  run acts s = Some s' → Settle l e (Fulfilled r) ∈ acts → code r = 200 →
  Published l (feeds e) (message r) ∈ trace s'.
Proof.
  intros Hrun (acts1 & acts2 & ->)%list_elem_of_split Hr.
  rewrite run_app in Hrun. destruct (run acts1 s) as [s1|]; [|done].
  simpl in Hrun. unfold settle in Hrun. case_decide; [|done]. simpl in Hrun.
  apply run_trace in Hrun as (new & ->).
  rewrite trace_resolve_news, !elem_of_app. right. left.
  apply published_news. by exists r.
Qed.

End settlement.

Lemma reachable_run_init acts s : run acts init = Some s → reachable s.
Proof. apply reachable_run, reachable_init. Qed.

(** * The claims *)

Section claims.
Implicit Types (s : state) (c : channel) (e : endpoint) (l : nat)
  (o : outcome).

(** C5.  When one of the three fetches of a [load] call is fulfilled, its
    payload is published on the channel it feeds if and only if the response
    carries code 200, and then the channel holds the payload; on any other
    code the message is logged and no subject changes. *)
Theorem publish_iff_200 s l e r :
  (l, e) ∈ pending s →
  ∃ s' new,
    settle l e (Fulfilled r) s = Some s' ∧ trace s' = new ++ trace s
    ∧ (∀ l' c v, Published l' c v ∈ new
                 ↔ code r = 200 ∧ l' = l ∧ c = feeds e ∧ v = message r)
    ∧ (code r = 200 → value_of (feeds e) s' = message r)
    ∧ (code r ≠ 200 →
       console s' = console s ++ [message r] ∧ ∀ c, subj c s' = subj c s).
Proof.
  intros Hin. exists (resolve l e (Fulfilled r) s), (news l e (Fulfilled r) s).
  split; [by apply settle_pending|]. split; [apply trace_resolve_news|].
  split; [|split; [apply value_resolve_200|]].
  - intros l' c v. split.
    + by intros (r' & [= <-] & ?)%published_news.
    + intros (? & ? & ? & ?). apply published_news. by exists r.
  - intros Hr%Z.eqb_neq. split.
    + rewrite console_resolve. unfold lines. by rewrite Hr.
    + intros c. rewrite subj_resolve. by rewrite Hr.
Qed.


(** C6.  Subscribing to a channel delivers at once the value most recently
    published on it, or its initial value when nothing was published; the
    subscriber joins the observers of the channel, and every value published
    afterwards is delivered to all who are observers at that time. *)
Theorem replay_of_latest s c (sub : nat) :
  reachable s →
  (trace (subscribe c sub s) = Delivered c sub (Next (latest c (trace s))) :: trace s
   ∧ sub ∈ observers (subj c (subscribe c sub s)))
  ∧ (∀ l e r s', feeds e = c → code r = 200 →
       settle l e (Fulfilled r) s = Some s' →
       ∃ new, trace s' = new ++ trace s
              ∧ ∀ sub', sub' ∈ observers (subj c s) →
                      Delivered c sub' (Next (message r)) ∈ new).
Proof.
  intros Hs%reachable_invariant. destruct (inv_running _ Hs c) as [Hrun Herr].
  split.
  - rewrite subscribe_running by done. rewrite subj_emit, subj_set_subj.
    rewrite decide_True by done. cbn. rewrite (inv_latest _ Hs).
    split; [done|]. rewrite elem_of_app, list_elem_of_singleton. by right.
  - intros l e r s' <- Hr. unfold settle. case_decide; [|done].
    intros [= <-]. exists (news l e (Fulfilled r) s).
    split; [apply trace_resolve_news|]. intros sub' Hsub'.
    by apply delivered_news.
Qed.

(** C7.  As long as nothing has been published, the three channels hold the
    values of the field initializers: the empty array, the empty object, and
    [{ mmpm: false, MagicMirror: false, packages: [] }]. *)
Theorem initial_values s :
  reachable s → (∀ l c v, Published l c v ∉ trace s) →
  value_of Packages s = VArr []
  ∧ value_of DbInfo s = VObj []
  ∧ value_of Upgradable s
    = VObj [("mmpm", VBool false); ("MagicMirror", VBool false);
            ("packages", VArr [])]%string.
Proof.
  intros Hs%reachable_invariant Hnone.
  assert (∀ c, latest c (trace s) = initial c) as Hl.
  { intros c. induction (trace s) as [|ev tr IH]; [done|].
    assert (∀ l c v, Published l c v ∉ tr) as Htr.
    { intros l c' v Hin. apply (Hnone l c' v). by right. }
    destruct ev; simpl; auto. exfalso. eapply Hnone. left. }
  rewrite !(inv_latest _ Hs), !Hl. done.
Qed.

(** C9, amended.  In every reachable state no channel has completed or
    failed, every notification a subscriber ever received is a value, and the
    message of every response with a code other than 200 is in the log.  A
    rejection is neither caught nor logged: when a promise is rejected the
    console and the three subjects stay as they are, and the history gains
    the settlement and the unhandled rejection of the derived promise, no
    notification. *)
Theorem channels_never_stop s :
  reachable s →
  (∀ c, isStopped (subj c s) = false ∧ hasError (subj c s) = false)
  ∧ (∀ c (sub : nat) n, Delivered c sub n ∈ trace s →
       ∃ v, n = Next v ∧ (v = initial c ∨ ∃ l, Published l c v ∈ trace s))
  ∧ (∀ l e r, Settled l e (Fulfilled r) ∈ trace s → code r ≠ 200 →
              message r ∈ console s)
  ∧ (∀ l e reason s', settle l e (Rejected reason) s = Some s' →
       console s' = console s ∧ (∀ c, subj c s' = subj c s)
       ∧ trace s'
         = Unhandled (PThen l e) reason :: Settled l e (Rejected reason)
             :: trace s).
Proof.
  intros Hs%reachable_invariant. split; [apply (inv_running _ Hs)|].
  split; [|split; [apply (inv_logged _ Hs)|]]; cycle 1.
  { intros l e reason s'. unfold settle. case_decide; [|done]. intros [= <-].
    split; [|split].
    - rewrite console_resolve. cbn [lines]. by rewrite app_nil_r.
    - intros c. by rewrite subj_resolve.
    - rewrite trace_resolve. by destruct e. }
  split_and?.
  - intros c sub n (t1 & t2 & Heq)%list_elem_of_split.
    pose proof (inv_history _ Hs) as Hj. rewrite Heq in Hj.
    apply justified_split in Hj. simpl in Hj. eexists. split; [done|].
    rewrite Heq. destruct (latest_published c t2) as [->|[l Hl]]; [by left|].
    right. exists l. rewrite elem_of_app. right. by right.
Qed.

(** C10.  Within one [load] call the database-info and upgradable calls are
    made only after the packages promise was fulfilled; when it was not
    fulfilled (it is still in flight, or it was rejected) that [load] call
    publishes nothing on the other two channels; and a publish of that call
    on the packages channel comes before its publishes on the other two. *)
Theorem inner_fetches_wait_for_packages s l :
  reachable s →
  (∀ e t1 t2, e ≠ GetPackages → trace s = t1 ++ Initiated l e :: t2 →
     ∃ r, Settled l GetPackages (Fulfilled r) ∈ t2)
  ∧ ((∀ r, Settled l GetPackages (Fulfilled r) ∉ trace s) →
     ∀ c v, c ≠ Packages → Published l c v ∉ trace s)
  ∧ (∀ c v v' t1 t2, c ≠ Packages → trace s = t1 ++ Published l c v :: t2 →
       Published l Packages v' ∈ trace s → Published l Packages v' ∈ t2).
Proof.
  intros Hs%reachable_invariant. pose proof (inv_history _ Hs) as Hj.
  assert (∀ e t1 t2, e ≠ GetPackages → trace s = t1 ++ Initiated l e :: t2 →
            ∃ r, Settled l GetPackages (Fulfilled r) ∈ t2) as Hcalls.
  { intros e t1 t2 He Heq. rewrite Heq in Hj. apply justified_split in Hj.
    by destruct e. }
  split; [exact Hcalls|]. split.
  - intros Hnot c v Hc Hp.
    destruct (published_initiated _ _ _ _ Hj Hp) as (e & <- & Hi).
    apply list_elem_of_split in Hi as (t1 & t2 & Heq).
    destruct (Hcalls e t1 t2) as [r Hr]; [by intros ->|done|].
    apply (Hnot r). rewrite Heq, elem_of_app. right. by right.
  - intros c v v' t1 t2 Hc Heq. rewrite Heq, elem_of_app, elem_of_cons.
    intros [Hin|[[=]|Hin]]; [|done..].
    apply list_elem_of_split in Hin as (u1 & u2 & ->).
    rewrite Heq, <- app_assoc in Hj. apply justified_split in Hj as [_ Hj].
    exfalso. apply Hc, (Hj eq_refl c v). rewrite elem_of_app. right. left.
Qed.

Lemma feeds_inj e e' : feeds e = feeds e' → e = e'.
Proof. by destruct e, e'. Qed.

(** In the schedule of one [load], a call with a failure response puts
    nothing on the channel it feeds, and neither does any other call. *)
Lemma schedule_quiet api dbFirst l e r :
  api e = Some (Fulfilled r) → code r ≠ 200 →
  Forall (λ a, publishes (feeds e) a = None) (schedule api dbFirst l).
Proof.
  intros He Hr%Z.eqb_neq. apply Forall_forall. intros [| | |l' e' [r'|]]; try done.
  intros [_ He']%schedule_settles. simpl.
  destruct (decide (feeds e' = feeds e)) as [->%feeds_inj|Hne].
  - rewrite He in He'. injection He' as <-. by rewrite Hr.
  - by rewrite bool_decide_false, andb_false_r.
Qed.

Lemma publishes_other c l e o : feeds e ≠ c → publishes c (Settle l e o) = None.
Proof.
  intros. destruct o as [r|]; [|done]. simpl.
  by rewrite bool_decide_false, andb_false_r.
Qed.

(** When the packages promise is fulfilled, each call of the schedule settles
    as the API decides, and it is the last to touch its channel. *)
Lemma schedule_split api dbFirst l e r :
  api e = Some (Fulfilled r) →
  e = GetPackages ∨ (∃ rp, api GetPackages = Some (Fulfilled rp)) →
  ∃ acts1 acts2,
    schedule api dbFirst l = acts1 ++ Settle l e (Fulfilled r) :: acts2
    ∧ Forall (λ a, publishes (feeds e) a = None) acts2.
Proof.
  intros He Hp.
  assert (∃ rp, api GetPackages = Some (Fulfilled rp)) as [rp Hrp].
  { destruct Hp as [->|?]; [by exists r|done]. }
  unfold schedule. rewrite Hrp.
  destruct e, dbFirst, (api GetDbInfo) as [odb|] eqn:Hdb,
    (api GetDbUpgradable) as [oup|] eqn:Hup; simplify_eq; cbn [settle_if app];
    first
      [ eexists [_], _; split; [reflexivity|]
      | eexists [_; _], _; split; [reflexivity|]
      | eexists [_; _; _], _; split; [reflexivity|] ];
    repeat constructor; by apply publishes_other.
Qed.

(** C4.  A fetch that the API answers with a code other than 200 leaves its
    channel as it was before [load] was called, and nothing is published on
    that channel in the course of the call. *)
Theorem failed_fetch_leaves_channel api dbFirst s e r :
  api e = Some (Fulfilled r) → code r ≠ 200 →
  ∃ s' new,
    load_run api dbFirst s = Some s'
    ∧ value_of (feeds e) s' = value_of (feeds e) s
    ∧ trace s' = new ++ trace s
    ∧ ∀ l v, Published l (feeds e) v ∉ new.
Proof.
  intros He Hr. destruct (load_run_total api dbFirst s) as [s' Hrun].
  pose proof (schedule_quiet api dbFirst (loads s) e r He Hr) as Hq.
  destruct (run_quiet _ _ _ _ Hrun Hq) as (new & Htr & Hnew).
  exists s', new. split; [done|]. split; [|done].
  by apply (run_value_unchanged _ _ _ _ Hrun).
Qed.

(** C3, amended.  Provided the packages promise is fulfilled (with any
    code), a fetch answered with code 200 is published on its channel
    whatever happens to the other two fetches: a failure code, a rejection, or
    no answer at all. *)
Theorem independent_publish_after_packages api dbFirst s e r :
  api e = Some (Fulfilled r) → code r = 200 →
  e = GetPackages ∨ (∃ rp, api GetPackages = Some (Fulfilled rp)) →
  ∃ s',
    load_run api dbFirst s = Some s'
    ∧ value_of (feeds e) s' = message r
    ∧ Published (loads s) (feeds e) (message r) ∈ trace s'.
Proof.
  intros He Hr Hp. destruct (load_run_total api dbFirst s) as [s' Hrun].
  exists s'. split; [done|].
  destruct (schedule_split api dbFirst (loads s) e r He Hp)
    as (acts1 & acts2 & Hs & Hq).
  unfold load_run in Hrun. rewrite Hs in Hrun. split.
  - eapply run_value_last; [done| |done]. simpl.
    by rewrite (proj2 (Z.eqb_eq _ _) Hr), bool_decide_true.
  - eapply run_published; [done| |done]. rewrite elem_of_app. right. left.
Qed.

(** C1, amended.  [load] returns [undefined], and returns it at once: the
    packages call has just been made, nothing has settled, no subject has
    changed.  It hands its caller no asynchronous operation, and it never
    throws. *)
Theorem load_returns_nothing s :
  (load s).2 = Return VUndefined
  ∧ awaited (load s).2 = None
  ∧ pending (load s).1 = pending s ++ [(loads s, GetPackages)]
  ∧ trace (load s).1 = Initiated (loads s) GetPackages :: trace s
  ∧ ∀ c, subj c (load s).1 = subj c s.
Proof. repeat split. Qed.

End claims.


(** ** The claims on concrete runs *)

(** C1: [load] has returned [undefined], which is no asynchronous operation,
    while the packages promise is still in flight and the other two calls are
    not even made. *)
Lemma load_gives_no_operation :
  (load init).2 = Return VUndefined
  ∧ awaited (load init).2 = None
  ∧ pending (load init).1 = [(0%nat, GetPackages)]
  ∧ trace (load init).1 = [Initiated 0 GetPackages].
Proof. repeat split. Qed.

(** C2.  The hook of the application calls [get_packages] on the store, a
    member that [SharedStoreService] does not have: run on the store, it
    throws a [TypeError], whatever the engine's wording, before anything
    else happens.  [load] does not run and no API call is made. *)
Lemma hook_misses_load (wording : string → string) :
  SharedStoreService !! "get_packages"%string = None
  ∧ init_shared_store wording SharedStoreService () init
    = (init, Throw (TypeError (wording "get_packages"%string)))
  ∧ init_shared_store wording SharedStoreService () init ≠ load init.
Proof.
  assert (SharedStoreService !! "get_packages"%string = None) as Hnone
    by (by vm_compute).
  split; [done|]. unfold init_shared_store, invoke. rewrite Hnone.
  split; [done|]. intros [= _ _ ?].
Qed.

(** C3: the packages promise is rejected; the other two calls, which the API
    would answer with code 200, are never made, and their channels keep their
    initial values. *)
Lemma rejected_packages_blocks_the_rest :
  outage GetDbInfo = Some (Fulfilled (ok details))
  ∧ outage GetDbUpgradable = Some (Fulfilled (ok upgrades))
  ∧ ∃ s', load_run outage true init = Some s'
          ∧ value_of DbInfo s' = VObj [] ∧ value_of DbInfo s' ≠ details
          ∧ value_of Upgradable s' ≠ upgrades
          ∧ initiated 0 (trace s') = [GetPackages].
Proof.
  split; [done|]. split; [done|]. eexists. split; [by vm_compute|].
  by repeat split.
Qed.

Lemma independent_publish_after_packages_witness :
  ∃ s', load_run flaky true init = Some s'
        ∧ value_of DbInfo s' = details
        ∧ Published 0 DbInfo details ∈ trace s'.
Proof.
  apply (independent_publish_after_packages flaky true init GetDbInfo (ok details)).
  - reflexivity.
  - reflexivity.
  - right. exists server_error. reflexivity.
Defined.

Lemma failed_fetch_leaves_channel_witness :
  ∃ s' new, load_run flaky true init = Some s'
            ∧ value_of Packages s' = value_of Packages init
            ∧ trace s' = new ++ trace init
            ∧ ∀ l v, Published l Packages v ∉ new.
Proof.
  apply (failed_fetch_leaves_channel flaky true init GetPackages server_error).
  - reflexivity.
  - vm_compute. discriminate.
Defined.

Lemma publish_iff_200_witness :
  ∃ s' new,
    settle 0 GetPackages (Fulfilled (ok catalog)) (load init).1 = Some s'
    ∧ trace s' = new ++ trace (load init).1
    ∧ (∀ l' c v, Published l' c v ∈ new
                 ↔ code (ok catalog) = 200 ∧ l' = 0%nat ∧ c = Packages ∧ v = catalog)
    ∧ (code (ok catalog) = 200 → value_of Packages s' = catalog)
    ∧ (code (ok catalog) ≠ 200 →
       console s' = console (load init).1 ++ [catalog]
       ∧ ∀ c, subj c s' = subj c (load init).1).
Proof.
  apply (publish_iff_200 (load init).1 0 GetPackages (ok catalog)).
  vm_compute. left.
Defined.


Lemma replay_of_latest_witness :
  (trace (subscribe Packages 2 after_session)
   = Delivered Packages 2 (Next (latest Packages (trace after_session)))
       :: trace after_session
   ∧ 2%nat ∈ observers (subj Packages (subscribe Packages 2 after_session)))
  ∧ (∀ l e r s', feeds e = Packages → code r = 200 →
       settle l e (Fulfilled r) after_session = Some s' →
       ∃ new, trace s' = new ++ trace after_session
              ∧ ∀ sub', sub' ∈ observers (subj Packages after_session) →
                        Delivered Packages sub' (Next (message r)) ∈ new).
Proof.
  apply (replay_of_latest after_session Packages 2).
  apply (reachable_run_init session). vm_compute. reflexivity.
Defined.

Example replayed_after_session :
  latest Packages (trace after_session) = catalog
  ∧ latest DbInfo (trace after_session) = VObj [].
Proof. by vm_compute. Qed.

Lemma initial_values_witness :
  value_of Packages after_refused = VArr []
  ∧ value_of DbInfo after_refused = VObj []
  ∧ value_of Upgradable after_refused
    = VObj [("mmpm", VBool false); ("MagicMirror", VBool false);
            ("packages", VArr [])]%string.
Proof.
  apply (initial_values after_refused).
  - apply (reachable_run_init refused). vm_compute. reflexivity.
  - intros l c v Hin. vm_compute in Hin.
    repeat (apply elem_of_cons in Hin as [Hin|Hin]; [discriminate Hin|]).
    by apply elem_of_nil in Hin.
Defined.

(** C9: the packages promise is rejected with "Network Error".  Nothing
    catches it and nothing logs it: the console holds the opening line of
    [load] and no more, and the rejection is left unhandled. *)
Lemma rejection_is_neither_logged_nor_caught :
  run rejection init = Some after_rejection
  ∧ console after_rejection = [VStr "Getting packages for data store"]
  ∧ (VStr "Network Error" ∉ console after_rejection)
  ∧ Unhandled (PThen 0 GetPackages) (VStr "Network Error")
      ∈ trace after_rejection.
Proof.
  split; [by vm_compute|]. split; [done|]. split.
  - by intros [=]%list_elem_of_singleton.
  - left.
Qed.

Lemma channels_never_stop_witness :
  (∀ c, isStopped (subj c after_session) = false
        ∧ hasError (subj c after_session) = false)
  ∧ (∀ c (sub : nat) n, Delivered c sub n ∈ trace after_session →
       ∃ v, n = Next v
            ∧ (v = initial c ∨ ∃ l, Published l c v ∈ trace after_session))
  ∧ (∀ l e r, Settled l e (Fulfilled r) ∈ trace after_session →
              code r ≠ 200 → message r ∈ console after_session)
  ∧ (∀ l e reason s', settle l e (Rejected reason) after_session = Some s' →
       console s' = console after_session
       ∧ (∀ c, subj c s' = subj c after_session)
       ∧ trace s'
         = Unhandled (PThen l e) reason :: Settled l e (Rejected reason)
             :: trace after_session).
Proof.
  apply (channels_never_stop after_session).
  apply (reachable_run_init session). vm_compute. reflexivity.
Defined.

Lemma inner_fetches_wait_for_packages_witness :
  (∀ e t1 t2, e ≠ GetPackages →
     trace after_session = t1 ++ Initiated 0 e :: t2 →
     ∃ r, Settled 0 GetPackages (Fulfilled r) ∈ t2)
  ∧ ((∀ r, Settled 0 GetPackages (Fulfilled r) ∉ trace after_session) →
     ∀ c v, c ≠ Packages → Published 0 c v ∉ trace after_session)
  ∧ (∀ c v v' t1 t2, c ≠ Packages →
       trace after_session = t1 ++ Published 0 c v :: t2 →
       Published 0 Packages v' ∈ trace after_session →
       Published 0 Packages v' ∈ t2).
Proof.
  apply (inner_fetches_wait_for_packages after_session 0).
  apply (reachable_run_init session). vm_compute. reflexivity.
Defined.

(** * More properties *)

(** ** Every promise and every log line accounted for *)

Section accounting.
Implicit Types (s : state) (c : channel) (e : endpoint) (l : nat)
  (o : outcome) (tr : list event).

(** The events of a settlement, one by one. *)
Lemma news_inv ev l e o s :
  ev ∈ news l e o s →
  ev = Settled l e o
  ∨ (∃ p, p ∈ followups l e o ∧ ev = Initiated p.1 p.2)
  ∨ (∃ r, o = Fulfilled r ∧ code r = 200
          ∧ (ev = Published l (feeds e) (message r)
             ∨ ∃ sub, sub ∈ observers (subj (feeds e) s)
                      ∧ ev = Delivered (feeds e) sub (Next (message r))))
  ∨ (∃ reason, o = Rejected reason ∧ ev = Unhandled (PThen l e) reason).
Proof.
  unfold news. rewrite !elem_of_app, list_elem_of_singleton.
  intros [Hc|[Ha|?]]; [right; left| |by left].
  - apply list_elem_of_fmap in Hc as (p & -> & Hp).
    rewrite elem_of_reverse in Hp. exists p. split; [exact Hp|reflexivity].
  - right. right. destruct o as [r|reason]; unfold announced in Ha.
    + left. exists r. destruct (code r =? 200) eqn:Hr; [|by apply elem_of_nil in Ha].
      split; [done|]. split; [lia|].
      apply elem_of_app in Ha as [Ha|Ha%list_elem_of_singleton]; [|by left].
      right. rewrite elem_of_reverse in Ha. unfold deliveries, Subject.next in Ha.
      cbn [snd] in Ha. destruct (isStopped _); [by apply elem_of_nil in Ha|].
      apply list_elem_of_fmap in Ha as ([sub n] & -> & Hin).
      apply list_elem_of_fmap in Hin as (sub' & [= -> ->] & Hin).
      by exists sub'.
    + right. exists reason. by apply list_elem_of_singleton in Ha.
Qed.

Lemma settled_news l' e' o' l e o s :
  Settled l' e' o' ∈ news l e o s ↔ l' = l ∧ e' = e ∧ o' = o.
Proof.
  split.
  - intros [Heq|[(p & _ & ?)|[(r & _ & _ & [?|(? & _ & ?)])|(? & _ & ?)]]]%news_inv;
      try done. by injection Heq.
  - intros (-> & -> & ->). unfold news. rewrite !elem_of_app, list_elem_of_singleton.
    by right; right.
Qed.

Lemma unhandled_news p reason l e o s :
  Unhandled p reason ∈ news l e o s ↔ p = PThen l e ∧ o = Rejected reason.
Proof.
  split.
  - intros [?|[(q & _ & ?)|[(r & _ & _ & [?|(? & _ & ?)])|(? & -> & Heq)]]]%news_inv;
      try done. by injection Heq as -> ->.
  - intros (-> & ->). unfold news, announced.
    rewrite !elem_of_app, !list_elem_of_singleton. by right; left.
Qed.

Lemma once_neutral new tr : Forall neutral new → once tr → once (new ++ tr).
Proof.
  induction 1 as [|ev new Hev _ IH]; [done|]. intros Htr. simpl.
  split; [|by apply IH]. by destruct ev.
Qed.

Lemma once_older t1 t2 : once (t1 ++ t2) → once t2.
Proof. induction t1 as [|? ? IH]; simpl; [done|]. intros [_ ?]. auto. Qed.

Lemma once_news l e o s tr :
  once tr → (∀ o', Settled l e o' ∉ tr) → (∀ v, Published l (feeds e) v ∉ tr) →
  once (news l e o s ++ tr).
Proof.
  intros Htr Hs Hp. unfold news. rewrite <- !app_assoc.
  apply once_neutral. { destruct o, e; by repeat constructor. }
  assert (once ([Settled l e o] ++ tr)) as Hs' by (by split).
  destruct o as [r|reason]; unfold announced.
  - destruct (code r =? 200); [|done]. rewrite <- app_assoc.
    apply once_neutral.
    { eapply Forall_impl; [apply notes_deliveries|]. by intros ? [? ->]. }
    split; [|done]. intros v [?|?]%elem_of_cons; [done|]. by eapply Hp.
  - by split.
Qed.

Lemma settled_initiated l e o tr :
  justified tr → Settled l e o ∈ tr → Initiated l e ∈ tr.
Proof.
  intros Hj (t1 & t2 & ->)%list_elem_of_split.
  apply justified_split in Hj. rewrite elem_of_app. right. by right.
Qed.

Lemma published_settled l c v tr :
  justified tr → Published l c v ∈ tr →
  ∃ e r, feeds e = c ∧ code r = 200 ∧ message r = v
         ∧ Settled l e (Fulfilled r) ∈ tr.
Proof.
  intros Hj (t1 & t2 & ->)%list_elem_of_split.
  destruct (justified_split _ _ _ Hj) as [(e & r & ? & ? & ? & ?) _].
  exists e, r. repeat split; try done. rewrite elem_of_app. right. by right.
Qed.

Lemma lines_spec v e o :
  v ∈ lines e o
  ↔ ∃ r, o = Fulfilled r
         ∧ ((code r = 200 ∧ e = GetPackages ∧ v = VStr "Retrieved packages")
            ∨ (code r ≠ 200 ∧ v = message r)).
Proof.
  unfold lines. destruct o as [r|reason].
  - destruct (code r =? 200) eqn:Hr.
    + apply Z.eqb_eq in Hr. destruct e; rewrite ?list_elem_of_singleton, ?elem_of_nil;
        naive_solver.
    + apply Z.eqb_neq in Hr. rewrite list_elem_of_singleton. naive_solver.
  - rewrite elem_of_nil. naive_solver.
Qed.

(** The console of a state whose history grew by [new], whose counter of
    [load] calls did not move. *)
Lemma logged_grow v s s' new :
  trace s' = new ++ trace s → loads s' = loads s →
  logged v s' ↔
    logged v s
    ∨ (v = VStr "Retrieved packages"
       ∧ ∃ l r, Settled l GetPackages (Fulfilled r) ∈ new ∧ code r = 200)
    ∨ (∃ l e r, Settled l e (Fulfilled r) ∈ new ∧ code r ≠ 200 ∧ v = message r).
Proof.
  intros Ht Hl. unfold logged. rewrite Ht, Hl.
  setoid_rewrite elem_of_app. naive_solver.
Qed.

Lemma accounting_init : accounting init.
Proof.
  split; cbn; try done.
  - by intros ? ? ?%elem_of_nil.
  - by intros ? ? ? ?%elem_of_nil.
  - by intros ? ? ? ?%elem_of_nil.
  - intros v. rewrite elem_of_nil. unfold logged. cbn.
    setoid_rewrite elem_of_nil. split; [done|]. intros [[_ ?]|[?|?]]; [lia|naive_solver..].
Qed.

Lemma accounting_load s : invariant s → accounting s → accounting (load s).1.
Proof.
  intros Hinv [Huns Honce Hpub Hunh Hcon]. split; store_simpl.
  - intros l e Hin o [?|Hs]%elem_of_cons; [done|].
    apply elem_of_app in Hin as [Hin|Hin%list_elem_of_singleton].
    + by eapply Huns.
    + injection Hin as -> ->.
      apply (settled_initiated _ _ _ _ (inv_history _ Hinv)) in Hs.
      apply elem_of_initiated in Hs. rewrite (inv_fresh _ Hinv) in Hs by done.
      by apply elem_of_nil in Hs.
  - by split.
  - intros l e r [?|?]%elem_of_cons ?; [done|]. right. by apply Hpub.
  - intros l e reason [?|?]%elem_of_cons; [done|]. right. by apply Hunh.
  - intros v. rewrite elem_of_app, list_elem_of_singleton, Hcon.
    unfold logged. cbn [load loads trace set_loads log initiate emit set_pending fst].
    setoid_rewrite elem_of_cons. split.
    + intros [[[-> ?]|?]| ->]; [left; split; [done|lia]|naive_solver|left; split; [done|lia]].
    + intros [[-> ?]|?]; [by right|]. left. right. naive_solver.
Qed.

Lemma accounting_subscribe c sub s :
  invariant s → accounting s → accounting (subscribe c sub s).
Proof.
  intros Hinv [Huns Honce Hpub Hunh Hcon].
  destruct (inv_running _ Hinv c) as [Hs He]. rewrite subscribe_running by done.
  split; cbn [emit trace pending console loads reverse rev_append app].
  - intros l e Hin o [?|?]%elem_of_cons; [done|]. by eapply Huns.
  - by split.
  - intros l e r [?|?]%elem_of_cons ?; [done|]. right. by apply Hpub.
  - intros l e reason [?|?]%elem_of_cons; [done|]. right. by apply Hunh.
  - intros v. rewrite Hcon. symmetry.
    rewrite (logged_grow v s _ [Delivered c sub (Next (value_of c s))]); [|done..].
    setoid_rewrite list_elem_of_singleton. naive_solver.
Qed.

Lemma accounting_unsubscribe c sub s : accounting s → accounting (unsubscribe c sub s).
Proof. by intros []. Qed.

Lemma accounting_resolve l e o s :
  invariant s → accounting s → (l, e) ∈ pending s → accounting (resolve l e o s).
Proof.
  intros Hinv [Huns Honce Hpub Hunh Hcon] Hin.
  pose proof (inv_history _ Hinv) as Hj.
  split.
  - intros l' e' Hin' o'. rewrite pending_resolve in Hin'.
    rewrite trace_resolve_news, elem_of_app, settled_news.
    apply elem_of_app in Hin' as [[Hne Hin']%list_elem_of_filter|Hf].
    + intros [(-> & -> & _)|?]; [done|]. by eapply Huns.
    + destruct o as [r|], e; try (by apply elem_of_nil in Hf).
      cbn [followups] in Hf.
      assert (l' = l ∧ e' ≠ GetPackages) as [-> He'] by set_solver.
      intros [(_ & -> & _)|Hs]; [done|].
      apply (settled_initiated _ _ _ _ Hj), elem_of_initiated in Hs.
      rewrite (inv_first _ Hinv l Hin) in Hs.
      by apply list_elem_of_singleton in Hs.
  - rewrite trace_resolve_news. apply once_news; [done|by apply Huns|].
    intros v (e' & r & ->%feeds_inj & _ & _ & Hs)%(published_settled _ _ _ _ Hj).
    by eapply Huns.
  - intros l' e' r. rewrite trace_resolve_news, !elem_of_app, settled_news.
    intros [(-> & -> & <-)|?] Hr; [left|right; by apply Hpub].
    apply published_news. by exists r.
  - intros l' e' reason. rewrite trace_resolve_news, !elem_of_app, settled_news.
    intros [(-> & -> & <-)|?]; [left|right; by apply Hunh].
    by apply unhandled_news.
  - intros v. rewrite console_resolve, elem_of_app, Hcon, lines_spec.
    rewrite (logged_grow v s (resolve l e o s) (news l e o s));
      [|apply trace_resolve_news|apply loads_resolve].
    setoid_rewrite settled_news. naive_solver.
Qed.

Lemma accounting_step a s s' :
  invariant s → accounting s → step a s = Some s' → accounting s'.
Proof.
  intros Hinv Hs. destruct a as [|c sub|c sub|l e o]; simpl.
  - intros [= <-]. by apply accounting_load.
  - intros [= <-]. by apply accounting_subscribe.
  - intros [= <-]. by apply accounting_unsubscribe.
  - unfold settle. case_decide; [|done]. intros [= <-].
    by apply accounting_resolve.
Qed.

Lemma reachable_accounting s : reachable s → accounting s.
Proof.
  induction 1 as [|s a s' Hs IH Hstep]; [apply accounting_init|].
  eapply accounting_step; [by apply reachable_invariant|done..].
Qed.

End accounting.

(** ** Further properties of the store *)

Section further.
Implicit Types (s : state) (c : channel) (e : endpoint) (l : nat)
  (o : outcome) (tr : list event).

(** X1.  Last write wins: whatever the actions of a run, [load] calls
    overlapping or not, a channel ends the run with the payload of the last
    response with code 200 that settled for it, and with the value it had
    when there was none. *)
Theorem last_write_wins c acts s s' :
  run acts s = Some s' → value_of c s' = last_value c acts (value_of c s).
Proof.
  revert s. induction acts as [|a acts IH]; intros s; simpl.
  - by intros [= <-].
  - destruct (step a s) as [s1|] eqn:Hstep; [|done]. simpl.
    intros Hrun. rewrite (IH _ Hrun). unfold last_value. simpl.
    by rewrite (step_value c _ _ _ Hstep).
Qed.

(** X2.  In every history a promise settles at most once, and a [load] call
    publishes at most once on a channel. *)
Theorem settled_and_published_once s :
  reachable s →
  (∀ l e o t1 t2, trace s = t1 ++ Settled l e o :: t2 →
     ∀ o', Settled l e o' ∉ t1 ++ t2)
  ∧ (∀ l c v t1 t2, trace s = t1 ++ Published l c v :: t2 →
       ∀ v', Published l c v' ∉ t1 ++ t2).
Proof.
  intros Hs. pose proof (acc_once _ (reachable_accounting _ Hs)) as Ho.
  split.
  - intros l e o t1 t2 Heq o' [Hin|Hin]%elem_of_app; rewrite Heq in Ho.
    + apply list_elem_of_split in Hin as (u1 & u2 & ->).
      rewrite <- app_assoc in Ho. apply once_older in Ho as [Ho _].
      apply (Ho o). rewrite elem_of_app. right. left.
    + apply once_older in Ho as [Ho _]. by apply (Ho o').
  - intros l c v t1 t2 Heq v' [Hin|Hin]%elem_of_app; rewrite Heq in Ho.
    + apply list_elem_of_split in Hin as (u1 & u2 & ->).
      rewrite <- app_assoc in Ho. apply once_older in Ho as [Ho _].
      apply (Ho v). rewrite elem_of_app. right. left.
    + apply once_older in Ho as [Ho _]. by apply (Ho v').
Qed.

(** X3.  The publishes of a history are exactly its responses with code 200:
    [load] number [l] has published [v] on channel [c] if and only if the
    call of [l] that feeds [c] was fulfilled with code 200 and message [v]. *)
Theorem published_iff_answered_200 s l c v :
  reachable s →
  Published l c v ∈ trace s
  ↔ ∃ e r, feeds e = c ∧ code r = 200 ∧ message r = v
           ∧ Settled l e (Fulfilled r) ∈ trace s.
Proof.
  intros Hs. split.
  - apply published_settled, (inv_history _ (reachable_invariant _ Hs)).
  - intros (e & r & <- & Hr & <- & Hin).
    by apply (acc_published _ (reachable_accounting _ Hs)).
Qed.

(** X4.  A settlement touches one channel only: the other two subjects stay
    as they are, the channel it feeds keeps its subscribers, and whatever is
    delivered goes to subscribers of that channel. *)
Theorem settlement_touches_one_channel l e o s s' :
  settle l e o s = Some s' →
  (∀ c, c ≠ feeds e → subj c s' = subj c s)
  ∧ observers (subj (feeds e) s') = observers (subj (feeds e) s)
  ∧ ∃ new, trace s' = new ++ trace s
           ∧ ∀ c sub n, Delivered c sub n ∈ new →
                        c = feeds e ∧ sub ∈ observers (subj (feeds e) s).
Proof.
  unfold settle. case_decide; [|done]. intros [= <-]. split; [|split].
  - intros c Hc. rewrite subj_resolve. destruct o as [r|]; [|done].
    by rewrite bool_decide_false, andb_false_r.
  - rewrite subj_resolve. destruct o as [r|]; [|done]. by destruct (_ && _).
  - exists (news l e o s). split; [apply trace_resolve_news|].
    intros c sub n
      [?|[(p & _ & ?)|[(r & _ & _ & [?|(sub' & ? & Heq)])|(? & _ & ?)]]]%news_inv;
      try done.
    by injection Heq as -> -> _.
Qed.

(** X5.  What the console holds, and nothing else: the opening line of each
    [load] call, "Retrieved packages" for a packages response with code 200,
    and the message of each response with another code.  A rejection leaves
    no line. *)
Theorem console_lines s v :
  reachable s →
  v ∈ console s
  ↔ (v = VStr "Getting packages for data store" ∧ (0 < loads s)%nat)
    ∨ (v = VStr "Retrieved packages"
       ∧ ∃ l r, Settled l GetPackages (Fulfilled r) ∈ trace s ∧ code r = 200)
    ∨ (∃ l e r, Settled l e (Fulfilled r) ∈ trace s ∧ code r ≠ 200
                ∧ v = message r).
Proof. intros Hs. apply (acc_console _ (reachable_accounting _ Hs)). Qed.

(** X6.  No rejection is handled: every rejected API promise leaves the
    promise derived by its [.then] rejected with nobody to catch it, and
    unhandled rejections come about in no other way. *)
Theorem rejections_stay_unhandled s p reason :
  reachable s →
  Unhandled p reason ∈ trace s
  ↔ ∃ l e, p = PThen l e ∧ Settled l e (Rejected reason) ∈ trace s.
Proof.
  intros Hs. split.
  - intros (t1 & t2 & Heq)%list_elem_of_split.
    pose proof (inv_history _ (reachable_invariant _ Hs)) as Hj.
    rewrite Heq in Hj. apply justified_split in Hj as (l & e & -> & Hin).
    exists l, e. split; [done|]. rewrite Heq, elem_of_app. right. by right.
  - intros (l & e & -> & Hin).
    by apply (acc_unhandled _ (reachable_accounting _ Hs)).
Qed.

(** X7.  A channel never holds anything but the value of its initializer or
    the message of a response with code 200 to the call that feeds it. *)
Theorem channel_holds_initial_or_payload s c :
  reachable s →
  value_of c s = initial c
  ∨ ∃ l e r, feeds e = c ∧ code r = 200
             ∧ Settled l e (Fulfilled r) ∈ trace s ∧ value_of c s = message r.
Proof.
  intros Hs. pose proof (reachable_invariant _ Hs) as Hinv.
  rewrite (inv_latest _ Hinv).
  destruct (latest_published c (trace s)) as [?|[l Hl]]; [by left|right].
  apply (published_settled _ _ _ _ (inv_history _ Hinv)) in Hl
    as (e & r & ? & ? & ? & ?).
  by exists l, e, r.
Qed.

Lemma followups_inner l e o : e ≠ GetPackages → followups l e o = [].
Proof. by destruct o, e. Qed.

(** The two inner callbacks commute, up to the order of their log lines. *)
Lemma inner_callbacks_commute l o1 o2 s :
  let s1 := resolve l GetDbUpgradable o2 (resolve l GetDbInfo o1 s) in
  let s2 := resolve l GetDbInfo o1 (resolve l GetDbUpgradable o2 s) in
  (∀ c, subj c s1 = subj c s2) ∧ pending s1 = pending s2
  ∧ console s1 ≡ₚ console s2.
Proof.
  cbn zeta. split; [|split].
  - intros c. rewrite !subj_resolve.
    destruct o1 as [r1|], o2 as [r2|]; try done.
    destruct (code r1 =? 200), (code r2 =? 200), c; done.
  - rewrite !pending_resolve, !followups_inner, !app_nil_r by done.
    rewrite !list_filter_filter. apply list_filter_iff. naive_solver.
  - rewrite !console_resolve, <- !app_assoc.
    apply Permutation_app_head, Permutation_app_comm.
Qed.

Ltac settle_in_flight :=
  first
    [ apply pending_load
    | apply pending_resolve_followup;
      first [apply list_elem_of_here
            |apply list_elem_of_further, list_elem_of_here]
    | apply pending_resolve_other; [congruence|settle_in_flight] ].

(** X8.  The order in which the database-info and the upgradable promise
    settle does not matter to one [load] on its own: either way the three
    subjects and the promises left in flight end up the same, and the console
    holds the same lines. *)
Theorem inner_order_is_irrelevant api s :
  ∃ s1 s2,
    load_run api true s = Some s1 ∧ load_run api false s = Some s2
    ∧ (∀ c, subj c s1 = subj c s2) ∧ pending s1 = pending s2
    ∧ console s1 ≡ₚ console s2.
Proof.
  unfold load_run, schedule. cbn [run step mbind option_bind].
  destruct (api GetPackages) as [[rp|reason]|],
    (api GetDbInfo) as [odb|], (api GetDbUpgradable) as [oup|];
    cbn [settle_if app];
    repeat (rewrite run_settle by settle_in_flight);
    do 2 eexists; (split; [reflexivity|]); (split; [reflexivity|]);
    try done.
  apply inner_callbacks_commute.
Qed.

(** X9.  When one [load] on its own has run its course, a call of it is
    still in flight exactly if it was made and the API never answers it: a
    [load] whose calls are all answered leaves nothing in flight, and a
    rejected packages call leaves the two inner calls unmade. *)
Theorem in_flight_after_load api dbFirst s s' e :
  reachable s → load_run api dbFirst s = Some s' →
  (loads s, e) ∈ pending s' ↔ made api e ∧ api e = None.
Proof.
  intros Hs%reachable_invariant.
  assert (∀ e', (loads s, e') ∉ pending s) as Hfresh.
  { intros e' Hin%(inv_pending _ Hs). lia. }
  unfold load_run, schedule, made. cbn [run step mbind option_bind].
  destruct (api GetPackages) as [[rp|reason]|] eqn:Hp, dbFirst,
    (api GetDbInfo) as [odb|] eqn:Hdb, (api GetDbUpgradable) as [oup|] eqn:Hup;
    cbn [settle_if app];
    repeat (rewrite run_settle by settle_in_flight);
    cbn [run]; intros [= <-];
    rewrite ?pending_resolve;
    rewrite ?(followups_inner _ GetDbInfo), ?(followups_inner _ GetDbUpgradable)
      by done;
    cbn [load fst initiate emit set_pending pending log set_loads followups];
    rewrite ?app_nil_r;
    repeat first [ rewrite elem_of_app | rewrite list_elem_of_filter
                 | rewrite elem_of_cons | rewrite elem_of_nil
                 | rewrite filter_app ].
    all: destruct e; rewrite ?Hp, ?Hdb, ?Hup; naive_solver.
Qed.

(** X10.  On a [SharedStoreService] the start-up hook throws a [TypeError]
    in every state, whatever the engine's wording, and leaves the state as
    it is: [load] does not run and no API call is made. *)
Theorem hook_throws_on_the_store (wording : string → string) s :
  init_shared_store wording SharedStoreService () s
  = (s, Throw (TypeError (wording "get_packages"%string))).
Proof.
  unfold init_shared_store, invoke.
  by replace (SharedStoreService !! "get_packages"%string) with (@None member)
    by (by vm_compute).
Qed.

(** X11.  When the packages call is rejected or never answered, one [load]
    on its own changes no subject and makes no other call, and the console
    gains the opening line only: nothing tells of the failure. *)
Theorem outage_changes_nothing api dbFirst s :
  reachable s →
  api GetPackages = None ∨ (∃ reason, api GetPackages = Some (Rejected reason)) →
  ∃ s', load_run api dbFirst s = Some s'
        ∧ (∀ c, subj c s' = subj c s)
        ∧ initiated (loads s) (trace s') = [GetPackages]
        ∧ console s' = console s ++ [VStr "Getting packages for data store"].
Proof.
  intros Hs%reachable_invariant Hout.
  assert (initiated (loads s) (trace (load s).1) = [GetPackages]) as Hcalls.
  { store_simpl. simpl. rewrite decide_True by done.
    by rewrite (inv_fresh _ Hs). }
  unfold load_run, schedule. cbn [run step mbind option_bind].
  destruct Hout as [->|[reason ->]]; cbn [settle_if].
  - cbn [run]. eexists. split; [done|]. split; [by intros []|]. by split.
  - rewrite run_settle by settle_in_flight. eexists. split; [done|].
    split; [|split].
    + intros c. rewrite subj_resolve. by destruct c.
    + rewrite initiated_resolve_other; [done|by right].
    + rewrite console_resolve. cbn [lines]. by rewrite app_nil_r.
Qed.

End further.

(** ** The further properties on concrete runs *)

Lemma last_write_wins_witness :
  value_of Packages after_overlap
  = last_value Packages overlap (value_of Packages init).
Proof. apply (last_write_wins Packages overlap init after_overlap). reflexivity. Defined.

Example first_call_wins_when_answered_last :
  value_of Packages after_overlap = catalog.
Proof. reflexivity. Qed.

Lemma settled_and_published_once_witness :
  (∀ l e o t1 t2, trace after_session = t1 ++ Settled l e o :: t2 →
     ∀ o', Settled l e o' ∉ t1 ++ t2)
  ∧ (∀ l c v t1 t2, trace after_session = t1 ++ Published l c v :: t2 →
       ∀ v', Published l c v' ∉ t1 ++ t2).
Proof.
  apply (settled_and_published_once after_session).
  apply (reachable_run_init session). vm_compute. reflexivity.
Defined.

Lemma published_iff_answered_200_witness :
  Published 0 Packages catalog ∈ trace after_session
  ↔ ∃ e r, feeds e = Packages ∧ code r = 200 ∧ message r = catalog
           ∧ Settled 0 e (Fulfilled r) ∈ trace after_session.
Proof.
  apply (published_iff_answered_200 after_session 0 Packages catalog).
  apply (reachable_run_init session). vm_compute. reflexivity.
Defined.

Lemma settlement_touches_one_channel_witness :
  (∀ c, c ≠ Packages →
        subj c (resolve 0 GetPackages (Fulfilled (ok catalog)) (load init).1)
        = subj c (load init).1)
  ∧ observers (subj Packages
                 (resolve 0 GetPackages (Fulfilled (ok catalog)) (load init).1))
    = observers (subj Packages (load init).1)
  ∧ ∃ new,
      trace (resolve 0 GetPackages (Fulfilled (ok catalog)) (load init).1)
      = new ++ trace (load init).1
      ∧ ∀ c sub n, Delivered c sub n ∈ new →
                   c = Packages ∧ sub ∈ observers (subj Packages (load init).1).
Proof.
  apply (settlement_touches_one_channel 0 GetPackages (Fulfilled (ok catalog))
           (load init).1).
  vm_compute. reflexivity.
Defined.

Lemma console_lines_witness :
  VStr "server error" ∈ console after_session
  ↔ (VStr "server error" = VStr "Getting packages for data store"
     ∧ (0 < loads after_session)%nat)
    ∨ (VStr "server error" = VStr "Retrieved packages"
       ∧ ∃ l r, Settled l GetPackages (Fulfilled r) ∈ trace after_session
                ∧ code r = 200)
    ∨ (∃ l e r, Settled l e (Fulfilled r) ∈ trace after_session ∧ code r ≠ 200
                ∧ VStr "server error" = message r).
Proof.
  apply (console_lines after_session (VStr "server error")).
  apply (reachable_run_init session). vm_compute. reflexivity.
Defined.

Lemma rejections_stay_unhandled_witness :
  Unhandled (PThen 0 GetPackages) (VStr "Network Error") ∈ trace after_rejection
  ↔ ∃ l e, PThen 0 GetPackages = PThen l e
           ∧ Settled l e (Rejected (VStr "Network Error")) ∈ trace after_rejection.
Proof.
  apply (rejections_stay_unhandled after_rejection (PThen 0 GetPackages)
           (VStr "Network Error")).
  apply (reachable_run_init rejection). vm_compute. reflexivity.
Defined.

Lemma channel_holds_initial_or_payload_witness :
  value_of Packages after_session = initial Packages
  ∨ ∃ l e r, feeds e = Packages ∧ code r = 200
             ∧ Settled l e (Fulfilled r) ∈ trace after_session
             ∧ value_of Packages after_session = message r.
Proof.
  apply (channel_holds_initial_or_payload after_session Packages).
  apply (reachable_run_init session). vm_compute. reflexivity.
Defined.

Lemma in_flight_after_load_witness :
  (loads init, GetDbUpgradable) ∈ pending after_silence
  ↔ made silent GetDbUpgradable ∧ silent GetDbUpgradable = None.
Proof.
  apply (in_flight_after_load silent true init after_silence GetDbUpgradable).
  - apply reachable_init.
  - vm_compute. reflexivity.
Defined.

Lemma outage_changes_nothing_witness :
  ∃ s', load_run outage true init = Some s'
        ∧ (∀ c, subj c s' = subj c init)
        ∧ initiated (loads init) (trace s') = [GetPackages]
        ∧ console s' = console init ++ [VStr "Getting packages for data store"].
Proof.
  apply (outage_changes_nothing outage true init).
  - apply reachable_init.
  - right. exists (VStr "Network Error"). reflexivity.
Defined.
